(** * miniCassandra: consistent hashing ring, node store and quorum coordinator

    A shallow embedding of the classes [ConsistentHashing] and [Node] (both in
    [src/ConsistentHashing.js]) and [Cluster] ([src/Cluster.js]), followed by
    the properties of the data plane.

    Conventions of the embedding:
    - a JS [Map] is an insertion-ordered association list ([Map_get],
      [Map_set], [Map_delete]);
    - a JS [Set] is an insertion-ordered list without duplicates;
    - [undefined] results of [Map.get] are [None];
    - [Date.now()] readings are explicit arguments of the operation that
      reads the clock;
    - a [while] loop is a fuelled function returning [None] when the fuel
      runs out;
    - what a remote peer does with an emitted message (delivery, its own clock,
      whether the acknowledgement arrives before the timer) is an explicit
      environment argument. *)

From Stdlib Require Import ZArith List String Ascii Bool Lia DecimalString Sorted.
From stdpp Require Import base tactics option list strings.

Local Open Scope string_scope.
Local Open Scope list_scope.
Local Open Scope Z_scope.

(** ** SHA-256, as used by [crypto.createHash('sha256')] *)

Module SHA256.

Definition mask32 : Z := 0xffffffff.
Definition add32 (x y : Z) : Z := Z.land (x + y) mask32.
Definition rotr (n x : Z) : Z :=
  Z.lor (Z.shiftr x n) (Z.land (Z.shiftl x (32 - n)) mask32).
Definition shr (n x : Z) : Z := Z.shiftr x n.
Definition not32 (x : Z) : Z := Z.lxor x mask32.

Definition Ch (x y z : Z) : Z := Z.lxor (Z.land x y) (Z.land (not32 x) z).
Definition Maj (x y z : Z) : Z :=
  Z.lxor (Z.lxor (Z.land x y) (Z.land x z)) (Z.land y z).
Definition bsig0 (x : Z) : Z := Z.lxor (Z.lxor (rotr 2 x) (rotr 13 x)) (rotr 22 x).
Definition bsig1 (x : Z) : Z := Z.lxor (Z.lxor (rotr 6 x) (rotr 11 x)) (rotr 25 x).
Definition ssig0 (x : Z) : Z := Z.lxor (Z.lxor (rotr 7 x) (rotr 18 x)) (shr 3 x).
Definition ssig1 (x : Z) : Z := Z.lxor (Z.lxor (rotr 17 x) (rotr 19 x)) (shr 10 x).

(** The round constants and the initial hash value of FIPS 180-4, in
    decimal. *)
Definition K : list Z :=
  [ 1116352408; 1899447441; 3049323471; 3921009573; 961987163; 1508970993;
    2453635748; 2870763221; 3624381080; 310598401; 607225278; 1426881987;
    1925078388; 2162078206; 2614888103; 3248222580; 3835390401; 4022224774;
    264347078; 604807628; 770255983; 1249150122; 1555081692; 1996064986;
    2554220882; 2821834349; 2952996808; 3210313671; 3336571891; 3584528711;
    113926993; 338241895; 666307205; 773529912; 1294757372; 1396182291;
    1695183700; 1986661051; 2177026350; 2456956037; 2730485921; 2820302411;
    3259730800; 3345764771; 3516065817; 3600352804; 4094571909; 275423344;
    430227734; 506948616; 659060556; 883997877; 958139571; 1322822218;
    1537002063; 1747873779; 1955562222; 2024104815; 2227730452; 2361852424;
    2428436474; 2756734187; 3204031479; 3329325298 ].

Definition H0 : list Z :=
  [ 1779033703; 3144134277; 1013904242; 2773480762;
    1359893119; 2600822924; 528734635; 1541459225 ].

(** Message bytes, padding and big-endian words. *)
Definition bytes_of_string (s : string) : list Z :=
  map (fun c => Z.of_N (N_of_ascii c)) (list_ascii_of_string s).

Definition be_bytes (n : nat) (x : Z) : list Z :=
  map (fun i => Z.land (Z.shiftr x (8 * Z.of_nat i)) 0xff) (rev (seq 0 n)).

Definition pad (msg : list Z) : list Z :=
  let len := Z.of_nat (length msg) in
  let zeros := Z.to_nat ((55 - len) mod 64) in
  msg ++ [0x80] ++ repeat 0 zeros ++ be_bytes 8 (8 * len).

Fixpoint words (n : nat) (bs : list Z) : list Z :=
  match n, bs with
  | S n', b0 :: b1 :: b2 :: b3 :: rest =>
      (Z.lor (Z.shiftl b0 24) (Z.lor (Z.shiftl b1 16) (Z.lor (Z.shiftl b2 8) b3)))
        :: words n' rest
  | _, _ => []
  end.

Fixpoint blocks (n : nat) (ws : list Z) : list (list Z) :=
  match n, ws with
  | S n', _ :: _ => firstn 16 ws :: blocks n' (skipn 16 ws)
  | _, _ => []
  end.

(** Message schedule; [recent] holds the words most recent first. *)
Fixpoint schedule (n : nat) (recent : list Z) : list Z :=
  match n with
  | O => rev recent
  | S n' =>
      let w := add32 (add32 (ssig1 (nth 1 recent 0)) (nth 6 recent 0))
                     (add32 (ssig0 (nth 14 recent 0)) (nth 15 recent 0)) in
      schedule n' (w :: recent)
  end.

Definition round (st : list Z) (kw : Z * Z) : list Z :=
  match st with
  | [a; b; c; d; e; f; g; h] =>
      let t1 := add32 (add32 (add32 h (bsig1 e)) (add32 (Ch e f g) (fst kw))) (snd kw) in
      let t2 := add32 (bsig0 a) (Maj a b c) in
      [add32 t1 t2; a; b; c; add32 d t1; e; f; g]
  | _ => st
  end.

Definition compress (h : list Z) (block : list Z) : list Z :=
  let w := schedule 48 (rev block) in
  let st := fold_left round (combine K w) h in
  map (fun p => add32 (fst p) (snd p)) (combine h st).

Definition digest (s : string) : list Z :=
  let bs := pad (bytes_of_string s) in
  let ws := words (length bs) bs in
  fold_left compress (blocks (length ws) ws) H0.

Definition hex_digit (d : Z) : ascii :=
  if d <? 10 then ascii_of_N (Z.to_N (48 + d)) else ascii_of_N (Z.to_N (87 + d)).

Definition hex_word (x : Z) : list ascii :=
  map (fun i => hex_digit (Z.land (Z.shiftr x (4 * Z.of_nat i)) 0xf)) (rev (seq 0 8)).

Definition hexdigest (s : string) : string :=
  string_of_list_ascii (concat (map hex_word (digest s))).

End SHA256.

(** ** JavaScript [Map] and [Set]

    A [Map] iterates in insertion order: [set] on a present key updates the
    entry in place, on an absent key appends; [delete] removes the entry. *)

Section JSMap.
Context {K V : Type} `{EqDecision K}.

Fixpoint Map_get (m : list (K * V)) (k : K) : option V :=
  match m with
  | [] => None
  | (k', v) :: m' => if decide (k' = k) then Some v else Map_get m' k
  end.

Definition Map_has (m : list (K * V)) (k : K) : bool :=
  match Map_get m k with Some _ => true | None => false end.

Fixpoint Map_set (m : list (K * V)) (k : K) (v : V) : list (K * V) :=
  match m with
  | [] => [(k, v)]
  | (k', v') :: m' =>
      if decide (k' = k) then (k, v) :: m' else (k', v') :: Map_set m' k v
  end.

Fixpoint Map_delete (m : list (K * V)) (k : K) : list (K * V) :=
  match m with
  | [] => []
  | (k', v') :: m' =>
      if decide (k' = k) then Map_delete m' k else (k', v') :: Map_delete m' k
  end.

Definition Map_keys (m : list (K * V)) : list K := fmap fst m.
Definition Map_values (m : list (K * V)) : list V := fmap snd m.
Definition Map_size (m : list (K * V)) : nat := length m.

(** [Set.add]: a value already present keeps its place. *)
Definition Set_add (x : K) (s : list K) : list K :=
  if decide (x ∈ s) then s else s ++ [x].
End JSMap.

(** [Array.prototype.sort((a, b) => a - b)] on numbers. *)
Fixpoint insert_sorted (x : Z) (l : list Z) : list Z :=
  match l with
  | [] => [x]
  | y :: l' => if x <=? y then x :: l else y :: insert_sorted x l'
  end.

Definition sort_numeric (l : list Z) : list Z := fold_right insert_sorted [] l.

(** ** ConsistentHashing.js *)

Record NodeInfo := { address : string; status : string }.

Record ConsistentHashing := {
  replicationFactor : nat;
  virtualNodes : nat;              (* virtual nodes per physical node *)
  ring : list (Z * string);        (* Map: hash position -> node id *)
  sortedHashes : list Z;           (* sorted array of hash positions *)
  nodes : list (string * NodeInfo) (* Map: node id -> node object *)
}.

(** [new ConsistentHashing(replicationFactor = 3, virtualNodes = 150)] *)
Definition new_ConsistentHashing (replicationFactor virtualNodes : nat) : ConsistentHashing :=
  {| replicationFactor := replicationFactor; virtualNodes := virtualNodes;
     ring := []; sortedHashes := []; nodes := [] |}.

Definition hash (key : string) : string := SHA256.hexdigest key.

Definition hex_value (c : ascii) : option Z :=
  let n := Z.of_N (N_of_ascii c) in
  if (48 <=? n) && (n <=? 57) then Some (n - 48)
  else if (97 <=? n) && (n <=? 102) then Some (n - 87)
  else if (65 <=? n) && (n <=? 70) then Some (n - 55)
  else None.

(** [parseInt(s, 16)] on a string of hexadecimal digits: the digits up to the
    first character that is not one. (A digest starts with eight of them, so
    the [NaN] of an empty prefix does not arise.) *)
Fixpoint parseInt16 (acc : Z) (s : string) : Z :=
  match s with
  | EmptyString => acc
  | String c s' =>
      match hex_value c with
      | Some d => parseInt16 (16 * acc + d) s'
      | None => acc
      end
  end.

Definition hashToPosition (hash : string) : Z :=
  parseInt16 0 (String.substring 0 8 hash).

(** The template literal [`${nodeId}:${i}`]. *)
Definition virtualNodeKey (nodeId : string) (i : nat) : string :=
  String.append nodeId (String.append ":" (NilZero.string_of_uint (Nat.to_uint i))).

Definition virtualPosition (nodeId : string) (i : nat) : Z :=
  hashToPosition (hash (virtualNodeKey nodeId i)).

Definition addNode (nodeId : string) (nodeInfo : NodeInfo) (c : ConsistentHashing)
  : ConsistentHashing :=
  let nodes' := Map_set (nodes c) nodeId nodeInfo in
  let ring' :=
    fold_left (fun r i => Map_set r (virtualPosition nodeId i) nodeId)
              (seq 0 (virtualNodes c)) (ring c) in
  {| replicationFactor := replicationFactor c; virtualNodes := virtualNodes c;
     ring := ring'; sortedHashes := sort_numeric (Map_keys ring'); nodes := nodes' |}.

Definition removeNode (nodeId : string) (c : ConsistentHashing)
  : bool * ConsistentHashing :=
  if negb (Map_has (nodes c) nodeId) then (false, c)
  else
    let ring' :=
      fold_left (fun r i => Map_delete r (virtualPosition nodeId i))
                (seq 0 (virtualNodes c)) (ring c) in
    (true,
     {| replicationFactor := replicationFactor c; virtualNodes := virtualNodes c;
        ring := ring'; sortedHashes := sort_numeric (Map_keys ring');
        nodes := Map_delete (nodes c) nodeId |}).

(** The [for] loops of [getNode] and [getReplicaNodes] that look for the first
    position at or after the key's. *)
Definition find_from (position : Z) (hashes : list Z) : option (nat * Z) :=
  list_find (fun hashPos => position <= hashPos) hashes.

(** [getNode]: [None] stands for [null] (empty ring) and for [undefined]. *)
Definition getNode (c : ConsistentHashing) (key : string) : option string :=
  match sortedHashes c with
  | [] => None
  | first :: _ =>
      let position := hashToPosition (hash key) in
      match find_from position (sortedHashes c) with
      | Some (_, hashPos) => Map_get (ring c) hashPos
      | None => Map_get (ring c) first
      end
  end.

Definition startIndex (c : ConsistentHashing) (key : string) : nat :=
  match find_from (hashToPosition (hash key)) (sortedHashes c) with
  | Some (i, _) => i
  | None => 0%nat
  end.

(** [this.ring.get(this.sortedHashes[currentIndex])]; [None] is [undefined]. *)
Definition ownerAt (c : ConsistentHashing) (currentIndex : nat) : option string :=
  sortedHashes c !! currentIndex ≫= Map_get (ring c).

(** The [while] loop of [getReplicaNodes]; one unit of fuel per evaluation of
    its condition. *)
Fixpoint replicaLoop (fuel : nat) (c : ConsistentHashing)
    (replicas : list (option string)) (currentIndex : nat)
  : option (list (option string)) :=
  match fuel with
  | O => None
  | S fuel' =>
      if (length replicas <? replicationFactor c)%nat
         && (length replicas <? Map_size (nodes c))%nat
      then replicaLoop fuel' c (Set_add (ownerAt c currentIndex) replicas)
                       ((currentIndex + 1) mod length (sortedHashes c))%nat
      else Some replicas
  end.

Definition getReplicaNodes (fuel : nat) (c : ConsistentHashing) (key : string)
  : option (list (option string)) :=
  match sortedHashes c with
  | [] => Some []
  | _ :: _ => replicaLoop fuel c [] (startIndex c key)
  end.

Definition getAllNodes (c : ConsistentHashing) : list string := Map_keys (nodes c).

(** ** Node.js *)

(** A client value: any JSON value, or [undefined] when the request body has
    no [value] field. *)
Inductive Value := Undefined | Json (text : string).

#[global] Instance Value_eq_dec : EqDecision Value.
Proof. solve_decision. Defined.

Record Metadata := { version : Z; timestamp : Z; meta_nodeId : string }.

Record Socket := { connected : bool }.

Record Peer := {
  peer_nodeId : string;
  peer_address : string;
  socket : option Socket;
  lastSeen : Z
}.

Record Node := {
  nodeId : string;
  data : list (string * Value);         (* Map: key -> value *)
  metadata : list (string * Metadata);  (* Map: key -> metadata *)
  peers : list (string * Peer);         (* Map: node id -> connected peer *)
  lastHeartbeat : list (string * Z)     (* Map: node id -> last heartbeat *)
}.

Definition new_Node (nodeId : string) : Node :=
  {| nodeId := nodeId; data := []; metadata := []; peers := []; lastHeartbeat := [] |}.

(** The payload of [replicate_data] and [write_request]. *)
Record DataMessage := { msg_key : string; msg_value : Value; msg_metadata : Metadata }.

(** What [getData] returns: [{ value, metadata }]. *)
Record StoredRecord := { value : Value; rec_metadata : option Metadata }.

Record WriteReply := { reply_success : bool; reply_nodeId : string }.

Inductive Message :=
| heartbeat (from : string) (ts : Z)
| node_failure (failedNodeId reportedBy : string) (ts : Z).

(** [storeData(key, value, version = 1)]; [now] is its [Date.now()]. *)
Definition storeData (n : Node) (key : string) (value : Value) (version : Z) (now : Z)
  : Node :=
  {| nodeId := nodeId n;
     data := Map_set (data n) key value;
     metadata := Map_set (metadata n) key
                   {| version := version; timestamp := now; meta_nodeId := nodeId n |};
     peers := peers n; lastHeartbeat := lastHeartbeat n |}.

(** [Map.get] of a key that is absent, or stored with [undefined]. *)
Definition data_get (n : Node) (key : string) : Value :=
  default Undefined (Map_get (data n) key).

Definition getData (n : Node) (key : string) : option StoredRecord :=
  let value := data_get n key in
  let metadata := Map_get (metadata n) key in
  if decide (value <> Undefined)
  then Some {| value := value; rec_metadata := metadata |}
  else None.

Definition handleReplication (n : Node) (data : DataMessage) (now : Z) : Node :=
  match Map_get (metadata n) (msg_key data) with
  | None =>
      storeData n (msg_key data) (msg_value data) (version (msg_metadata data)) now
  | Some existingMetadata =>
      if timestamp (msg_metadata data) >? timestamp existingMetadata
      then storeData n (msg_key data) (msg_value data) (version (msg_metadata data)) now
      else n
  end.

Definition handleReadRequest (n : Node) (key : string) : option StoredRecord :=
  getData n key.

Definition handleWriteRequest (n : Node) (data : DataMessage) (now : Z)
  : Node * WriteReply :=
  (storeData n (msg_key data) (msg_value data) (version (msg_metadata data)) now,
   {| reply_success := true; reply_nodeId := nodeId n |}).

(** One entry of [writeResults]. *)
Record WriteResult := {
  wr_nodeId : string;
  wr_success : bool;
  wr_error : option string
}.

(** [replicateToPeers]: [acked nodeId] tells whether the acknowledgement of
    the [replicate_data] sent to [nodeId] arrives before the 3 s timer. An
    entry of [targetNodes] that is [undefined] has no peer. *)
Fixpoint replicateToPeers (n : Node) (acked : string -> bool)
    (targetNodes : list (option string)) : list WriteResult :=
  match targetNodes with
  | [] => []
  | target :: rest =>
      let more := replicateToPeers n acked rest in
      match target with
      | None => more
      | Some id =>
          if decide (id = nodeId n) then more
          else
            match Map_get (peers n) id with
            | Some {| socket := Some _ |} =>
                (if acked id
                 then {| wr_nodeId := id; wr_success := true; wr_error := None |}
                 else {| wr_nodeId := id; wr_success := false; wr_error := Some "timeout" |})
                  :: more
            | _ => more
            end
      end
  end.

(** The [identify], [heartbeat] and [disconnect] handlers of [setupSocketIO]. *)
Definition onIdentify (n : Node) (peerId peerAddress : string) (sock : Socket) (now : Z)
  : Node :=
  {| nodeId := nodeId n; data := data n; metadata := metadata n;
     peers := Map_set (peers n) peerId
                {| peer_nodeId := peerId; peer_address := peerAddress;
                   socket := Some sock; lastSeen := now |};
     lastHeartbeat := Map_set (lastHeartbeat n) peerId now |}.

Definition onHeartbeat (n : Node) (peerId : string) (now : Z) : Node :=
  {| nodeId := nodeId n; data := data n; metadata := metadata n; peers := peers n;
     lastHeartbeat := Map_set (lastHeartbeat n) peerId now |}.

Definition onDisconnect (n : Node) (peerId : string) : Node :=
  {| nodeId := nodeId n; data := data n; metadata := metadata n;
     peers := Map_delete (peers n) peerId;
     lastHeartbeat := Map_delete (lastHeartbeat n) peerId |}.

Definition socket_connected (p : Peer) : bool :=
  match socket p with Some s => connected s | None => false end.

(** [broadcastNodeFailure]: the messages emitted, with their recipients. *)
Definition broadcastNodeFailure (n : Node) (failedNodeId : string) (now : Z)
  : list (string * Message) :=
  fmap (fun e => (fst e, node_failure failedNodeId (nodeId n) now))
      (filter (fun e => socket_connected (snd e) = true) (peers n)).

Definition handleNodeFailure (n : Node) (failedNodeId : string) (now : Z)
  : Node * list (string * Message) :=
  let n' := {| nodeId := nodeId n; data := data n; metadata := metadata n;
               peers := Map_delete (peers n) failedNodeId;
               lastHeartbeat := Map_delete (lastHeartbeat n) failedNodeId |} in
  (n', broadcastNodeFailure n' failedNodeId now).

Definition failureThreshold : Z := 10000.

(** [checkForFailedNodes]: [forEach] over the heartbeat map; the entry under
    visit is the only one its callback deletes. [now] is the reading taken on
    entry, [bnow nodeId] the one taken when the failure of [nodeId] is
    broadcast. *)
Definition checkForFailedNodes (n : Node) (now : Z) (bnow : string -> Z)
  : Node * list (string * Message) :=
  fold_left
    (fun acc entry =>
       if now - snd entry >? failureThreshold
       then let r := handleNodeFailure (fst acc) (fst entry) (bnow (fst entry)) in
            (fst r, snd acc ++ snd r)
       else acc)
    (lastHeartbeat n) (n, []).

(** ** Cluster.js *)

(** A cluster once [createNode] has run: the HTTP routes, and so [put] and
    [get], exist only from then on. *)
Record Cluster := {
  cluster_replicationFactor : nat;
  consistentHashing : ConsistentHashing;
  localNode : Node;
  quorumSize : nat
}.

(** [new Cluster(replicationFactor = 3)] followed by [createNode]. *)
Definition createNode (replicationFactor : nat) (nodeId : string) (address : string)
  : Cluster :=
  {| cluster_replicationFactor := replicationFactor;
     consistentHashing :=
       addNode nodeId {| address := address; status := "alive" |}
               (new_ConsistentHashing replicationFactor 150);
     localNode := new_Node nodeId;
     quorumSize := (replicationFactor / 2 + 1)%nat |}.

Definition with_ring (c : Cluster) (r : ConsistentHashing) : Cluster :=
  {| cluster_replicationFactor := cluster_replicationFactor c;
     consistentHashing := r; localNode := localNode c; quorumSize := quorumSize c |}.

Definition with_node (c : Cluster) (n : Node) : Cluster :=
  {| cluster_replicationFactor := cluster_replicationFactor c;
     consistentHashing := consistentHashing c; localNode := n;
     quorumSize := quorumSize c |}.

(** The ring part of [Cluster.addNode] and of the merge loop of [joinCluster]. *)
Definition cluster_addNode (c : Cluster) (nodeId : string) (address : string) : Cluster :=
  with_ring c (addNode nodeId {| address := address; status := "alive" |}
                       (consistentHashing c)).

(** The heartbeat timer of the local node: the node changes, the ring is not
    within its reach. *)
Definition cluster_checkForFailedNodes (c : Cluster) (now : Z) (bnow : string -> Z)
  : Cluster * list (string * Message) :=
  let r := checkForFailedNodes (localNode c) now bnow in
  (with_node c (fst r), snd r).

Record PutResult := {
  success : bool;
  key : string;
  replicaNodes : list (option string);
  successfulWrites : nat;
  put_quorumSize : nat;
  quorumAchieved : bool;
  writeResults : list WriteResult
}.

Definition includes (l : list (option string)) (id : string) : bool :=
  bool_decide (Some id ∈ l).

(** [put(key, value)]: [now_put] is the reading that goes into the metadata
    sent to the peers, [now_store] the one [storeData] takes. [None] when
    [getReplicaNodes] does not return within [fuel]. *)
Definition put (fuel : nat) (c : Cluster) (key : string) (value : Value)
    (now_put now_store : Z) (acked : string -> bool)
  : option (Cluster * PutResult) :=
  let timestamp := now_put in
  let version := 1 in
  match getReplicaNodes fuel (consistentHashing c) key with
  | None => None
  | Some replicaNodes =>
      let self := nodeId (localNode c) in
      let local := includes replicaNodes self in
      let node' := if local then storeData (localNode c) key value version now_store
                   else localNode c in
      let localResults :=
        if local then [{| wr_nodeId := self; wr_success := true; wr_error := None |}]
        else [] in
      let replicationResults := replicateToPeers node' acked replicaNodes in
      let writeResults := localResults ++ replicationResults in
      let successfulWrites := length (filter (fun r => wr_success r = true) writeResults) in
      let quorumAchieved := (quorumSize c <=? successfulWrites)%nat in
      Some (with_node c node',
            {| success := quorumAchieved; key := key; replicaNodes := replicaNodes;
               successfulWrites := successfulWrites; put_quorumSize := quorumSize c;
               quorumAchieved := quorumAchieved; writeResults := writeResults |})
  end.

(** The metadata [put] sends along with [replicate_data]. *)
Definition put_message (c : Cluster) (key : string) (value : Value) (now_put : Z)
  : DataMessage :=
  {| msg_key := key; msg_value := value;
     msg_metadata := {| version := 1; timestamp := now_put;
                        meta_nodeId := nodeId (localNode c) |} |}.

(** One entry of [readResults]. *)
Record ReadResult := {
  rr_nodeId : string;
  rr_success : bool;
  rr_data : option StoredRecord;
  rr_error : option string
}.

(** What comes back on a [read_request]: the peer's answer, or nothing in 3 s. *)
Inductive ReadReply := Replied (response : option StoredRecord) | NoReply.

Definition readFromPeer (n : Node) (replies : string -> ReadReply) (id : string)
  : ReadResult :=
  match Map_get (peers n) id with
  | Some {| socket := Some _ |} =>
      match replies id with
      | Replied (Some response) =>
          {| rr_nodeId := id; rr_success := true; rr_data := Some response; rr_error := None |}
      | Replied None =>
          {| rr_nodeId := id; rr_success := false; rr_data := None;
             rr_error := Some "not_found" |}
      | NoReply =>
          {| rr_nodeId := id; rr_success := false; rr_data := None;
             rr_error := Some "timeout" |}
      end
  | _ => {| rr_nodeId := id; rr_success := false; rr_data := None;
            rr_error := Some "not_connected" |}
  end.

(** A completed evaluation: a value, or a [TypeError] thrown on the way. *)
Inductive Completion (A : Type) := Normal (a : A) | TypeError.
Arguments Normal {A} a.
Arguments TypeError {A}.

(** [r.data.metadata.timestamp]: throws when [data] or [metadata] is
    [undefined]. *)
Definition result_timestamp (r : ReadResult) : option Z :=
  match rr_data r with
  | Some {| rec_metadata := Some m |} => Some (timestamp m)
  | _ => None
  end.

(** The callback of [readResults.reduce]. *)
Definition later (latest : Completion ReadResult) (current : ReadResult)
  : Completion ReadResult :=
  match latest with
  | TypeError => TypeError
  | Normal latest =>
      match result_timestamp current, result_timestamp latest with
      | Some tc, Some tl => Normal (if tc >? tl then current else latest)
      | _, _ => TypeError
      end
  end.

(** [reduce] without an initial value on a non-empty array. *)
Definition latestResult (first : ReadResult) (rest : list ReadResult)
  : Completion ReadResult :=
  fold_left later rest (Normal first).

Record GetResult := {
  get_value : Value;
  get_metadata : option Metadata;
  readResults : nat;
  get_quorumAchieved : bool
}.

(** The results [get] collects: the local record first, when the local node
    is a replica and holds one, then the successful peer results in the order
    of the replica list. *)
Definition collectReads (c : Cluster) (key : string) (replies : string -> ReadReply)
    (replicaNodes : list (option string)) : list ReadResult :=
  let self := nodeId (localNode c) in
  let localResults :=
    if includes replicaNodes self then
      match getData (localNode c) key with
      | Some localData =>
          [{| rr_nodeId := self; rr_success := true; rr_data := Some localData;
              rr_error := None |}]
      | None => []
      end
    else [] in
  let peerResults :=
    fmap (readFromPeer (localNode c) replies)
        (omap (fun t => t) (filter (fun t => t <> Some self) replicaNodes)) in
  localResults ++ filter (fun r => rr_success r = true) peerResults.

(** [get(key)]: [None] when [getReplicaNodes] does not return within [fuel];
    [Normal None] is the [null] of an empty result list. *)
Definition get (fuel : nat) (c : Cluster) (key : string) (replies : string -> ReadReply)
  : option (Completion (option GetResult)) :=
  match getReplicaNodes fuel (consistentHashing c) key with
  | None => None
  | Some replicaNodes =>
      match collectReads c key replies replicaNodes with
      | [] => Some (Normal None)
      | first :: rest =>
          match latestResult first rest with
          | TypeError => Some TypeError
          | Normal latest =>
              match rr_data latest with
              | None => Some TypeError
              | Some d =>
                  let count := S (length rest) in
                  Some (Normal (Some
                    {| get_value := value d; get_metadata := rec_metadata d;
                       readResults := count;
                       get_quorumAchieved := (quorumSize c <=? count)%nat |}))
              end
          end
      end
  end.

(** The HTTP routes [PUT /data/:key] and [GET /data/:key]. *)
Inductive HttpResponse (A : Type) := Ok200 (body : A) | NotFound404 | Error500.
Arguments Ok200 {A} body.
Arguments NotFound404 {A}.
Arguments Error500 {A}.

Definition http_put (fuel : nat) (c : Cluster) (key : string) (body_value : Value)
    (now_put now_store : Z) (acked : string -> bool)
  : option (Cluster * HttpResponse PutResult) :=
  match put fuel c key body_value now_put now_store acked with
  | Some (c', result) => Some (c', Ok200 result)
  | None => None
  end.

Definition http_get (fuel : nat) (c : Cluster) (key : string) (replies : string -> ReadReply)
  : option (HttpResponse GetResult) :=
  match get fuel c key replies with
  | None => None
  | Some TypeError => Some Error500
  | Some (Normal None) => Some NotFound404
  | Some (Normal (Some result)) => Some (Ok200 result)
  end.

(** ** The coordinator and its peers

    [setupSocketIO] hands a received [replicate_data] to [handleReplication]
    and a [read_request] to [handleReadRequest]; a world pairs the
    coordinating cluster with the nodes at the other end of its links. *)

Record World := {
  coordinator : Cluster;
  remotes : list (string * Node)    (* node id -> the node of that id *)
}.

(** What the network does with one fan-out: whether the message reaches the
    peer, the peer's clock when it does, and whether the acknowledgement
    comes back in time. *)
Record Wire := {
  delivered : string -> bool;
  recv_clock : string -> Z;
  acked : string -> bool
}.

Definition deliver_replication (data : DataMessage) (wire : Wire)
    (recipients : list string) (remotes : list (string * Node))
  : list (string * Node) :=
  fmap (fun e =>
         if bool_decide (fst e ∈ recipients) && delivered wire (fst e)
         then (fst e, handleReplication (snd e) data (recv_clock wire (fst e)))
         else e)
      remotes.

Definition world_put (fuel : nat) (w : World) (key : string) (value : Value)
    (now_put now_store : Z) (wire : Wire) : option (World * PutResult) :=
  match put fuel (coordinator w) key value now_put now_store (acked wire) with
  | None => None
  | Some (c', result) =>
      let recipients :=
        fmap wr_nodeId
            (replicateToPeers (localNode c') (acked wire) (replicaNodes result)) in
      Some ({| coordinator := c';
               remotes := deliver_replication
                            (put_message (coordinator w) key value now_put)
                            wire recipients (remotes w) |},
            result)
  end.

Definition node_of (w : World) (id : string) : option Node :=
  if decide (id = nodeId (localNode (coordinator w)))
  then Some (localNode (coordinator w))
  else Map_get (remotes w) id.

(** Whether the node of id [id] holds a record for [key] whose stored
    timestamp satisfies [P]. *)
Definition holds (w : World) (key : string) (P : Z -> bool) (id : string) : bool :=
  match node_of w id with
  | Some n =>
      match Map_get (metadata n) key with
      | Some m => P (timestamp m)
      | None => false
      end
  | None => false
  end.

(** The replica nodes that do. *)
Definition holders (w : World) (key : string) (P : Z -> bool)
    (replicaNodes : list (option string)) : list string :=
  filter (fun id => holds w key P id = true) (omap (fun t => t) replicaNodes).

(** ** The replica walk, as a list

    One full clockwise turn over the sorted positions, starting at the index
    the key hashes to, and the distinct values of a list in order of first
    occurrence. *)



(** A ring state as [addNode] and [removeNode] leave it when no node has lost
    all its positions: the position list is the sorted key list of the ring
    map, node ids are not repeated in the node table, every node of the table
    owns a position and every owner is in the table. *)
Definition ring_ok (c : ConsistentHashing) : Prop :=
  sortedHashes c = sort_numeric (Map_keys (ring c))
  /\ NoDup (Map_keys (nodes c))
  /\ Forall (fun id => Exists (fun e => Map_get (ring c) (fst e) = Some id) (ring c))
            (Map_keys (nodes c))
  /\ Forall (fun e => snd e ∈ Map_keys (nodes c)) (ring c).

#[global] Instance ring_ok_dec c : Decision (ring_ok c).
Proof. unfold ring_ok. apply _. Defined.

(** The position the key is served from: the least position at or after the
    key's, or the least position of the ring when there is none. *)
Definition primary_position (c : ConsistentHashing) (key : string) (q : Z) : Prop :=
  let position := hashToPosition (hash key) in
  q ∈ Map_keys (ring c)
  /\ ((position <= q /\ forall q', q' ∈ Map_keys (ring c) -> position <= q' -> q <= q')
      \/ ((forall q', q' ∈ Map_keys (ring c) -> q' < position)
          /\ forall q', q' ∈ Map_keys (ring c) -> q <= q')).

(** ** Auxiliary definitions *)

(** The replications a node receives, each with the reading of the node's
    clock on arrival. *)
Definition replications (n : Node) (arrivals : list (DataMessage * Z)) : Node :=
  fold_left (fun n a => handleReplication n (fst a) (snd a)) arrivals n.

(** Whether the peer table of [n] has an entry with a socket for [id]. *)
Definition linked (n : Node) (id : string) : bool :=
  match Map_get (peers n) id with
  | Some {| socket := Some _ |} => true
  | _ => false
  end.

(** The two loops over the virtual nodes of a node, for any numbering [f] of
    their positions and any list of indices. *)
Definition set_all (f : nat -> Z) (x : string) (idxs : list nat) (m : list (Z * string))
  : list (Z * string) :=
  fold_left (fun r i => Map_set r (f i) x) idxs m.

Definition delete_all (f : nat -> Z) (idxs : list nat) (m : list (Z * string))
  : list (Z * string) :=
  fold_left (fun r i => Map_delete r (f i)) idxs m.


(** What a GET showed of the record it chose. *)
Definition chosen (o : option (Completion (option GetResult)))
  : option (Value * option Metadata) :=
  match o with
  | Some (Normal (Some g)) => Some (get_value g, get_metadata g)
  | _ => None
  end.

Definition with_peer (n : Node) (peerId peerAddress : string) (now : Z) : Node :=
  onIdentify n peerId peerAddress {| connected := true |} now.

Definition all_ack (id : string) : bool := true.
Definition no_ack (id : string) : bool := false.
Definition no_reply (id : string) : ReadReply := NoReply.

(** ** Concrete clusters

    The ring states are computed once, here; the lemmas [ring_1_eq],
    [ring_12_eq], ... below check each against the calls it comes from. *)

Definition alive (address : string) : NodeInfo :=
  {| address := address; status := "alive" |}.

(** The seed node alone, as [start-node1.js] creates it. *)
Definition ring_1 : ConsistentHashing :=
  Eval vm_compute in
    addNode "node-1" (alive "localhost:3001") (new_ConsistentHashing 3 150).

(** The nodes of the start scripts, in the order node 1 learns of them. *)
Definition ring_12 : ConsistentHashing :=
  Eval vm_compute in addNode "node-2" (alive "localhost:3002") ring_1.

Definition ring_123 : ConsistentHashing :=
  Eval vm_compute in addNode "node-3" (alive "localhost:3003") ring_12.

(** The seed node with replication factor 1. *)
Definition ring_single : ConsistentHashing :=
  Eval vm_compute in
    addNode "node-1" (alive "localhost:3001") (new_ConsistentHashing 1 150).

(** The seed node's ring after a node whose 141st virtual key shares a
    position with the 55th of node 1 has been added. *)
Definition ring_1_stranger : ConsistentHashing :=
  Eval vm_compute in addNode "node-124793" (alive "localhost:3004") ring_1.

(** Two nodes with one virtual node each, whose virtual keys share position
    3747648692. *)
Definition ring_collided : ConsistentHashing :=
  Eval vm_compute in
    addNode "node-147767" (alive "localhost:3002")
      (addNode "node-94893" (alive "localhost:3001") (new_ConsistentHashing 3 1)).

(** A single node with replication factor 1. *)
Definition cluster_single : Cluster :=
  {| cluster_replicationFactor := 1; consistentHashing := ring_single;
     localNode := new_Node "node-1"; quorumSize := 1 |}.

(** Node 1 with nodes 2 and 3 in its ring and no link to them. *)
Definition cluster_123_unlinked : Cluster :=
  {| cluster_replicationFactor := 3; consistentHashing := ring_123;
     localNode := new_Node "node-1"; quorumSize := 2 |}.

(** Node 1 once nodes 2 and 3 have joined through it: both are in its ring;
    node 2 identified itself at 0 and node 3 at 5000. *)
Definition cluster_123 : Cluster :=
  with_node cluster_123_unlinked
            (with_peer (with_peer (new_Node "node-1") "node-2" "localhost:3002" 0)
                       "node-3" "localhost:3003" 5000).

(** The same cluster after the heartbeat timer of node 1 has run at 12000. *)
Definition cluster_123_after_failure : Cluster :=
  fst (cluster_checkForFailedNodes cluster_123 12000 (fun _ => 12000)).

Definition stale_write : DataMessage :=
  {| msg_key := "k"; msg_value := Json "old";
     msg_metadata := {| version := 1; timestamp := 500; meta_nodeId := "node-2" |} |}.

(** Two writes of one key, coordinated by node 1 at 1000 and by node 2 at
    1002. *)
Definition first_write : DataMessage :=
  {| msg_key := "k"; msg_value := Json "v1";
     msg_metadata := {| version := 1; timestamp := 1000; meta_nodeId := "node-1" |} |}.

Definition second_write : DataMessage :=
  {| msg_key := "k"; msg_value := Json "v2";
     msg_metadata := {| version := 1; timestamp := 1002; meta_nodeId := "node-2" |} |}.



(** Nodes 2 and 3 each hold ["user:1"] and ["test:3"] under timestamp 1000,
    node 2 with value [a] and node 3 with value [b]; node 1 holds neither.
    Each peer answers a [read_request] from its store. *)
Definition node_2_tie : Node :=
  storeData (storeData (new_Node "node-2") "user:1" (Json "a") 1 1000)
            "test:3" (Json "a") 1 1000.

Definition node_3_tie : Node :=
  storeData (storeData (new_Node "node-3") "user:1" (Json "b") 1 1000)
            "test:3" (Json "b") 1 1000.

Definition replies_tie (key : string) (id : string) : ReadReply :=
  if String.eqb id "node-2" then Replied (handleReadRequest node_2_tie key)
  else if String.eqb id "node-3" then Replied (handleReadRequest node_3_tie key)
  else NoReply.

Definition tie_result : GetResult :=
  {| get_value := Json "b";
     get_metadata := Some {| version := 1; timestamp := 1000; meta_nodeId := "node-3" |};
     readResults := 2; get_quorumAchieved := true |}.

Definition world_single : World := {| coordinator := cluster_single; remotes := [] |}.

Definition wire_all (clock : Z) : Wire :=
  {| delivered := fun _ => true; recv_clock := fun _ => clock; acked := fun _ => true |}.

(** Nodes 2 and 3 receive at 1003 and acknowledge in time. *)
Definition wire_peers : Wire :=
  {| delivered := fun id => String.eqb id "node-2" || String.eqb id "node-3";
     recv_clock := fun _ => 1003;
     acked := fun id => String.eqb id "node-2" || String.eqb id "node-3" |}.

Definition world_123 : World :=
  {| coordinator := cluster_123;
     remotes := [("node-2", new_Node "node-2"); ("node-3", new_Node "node-3")] |}.

Definition world_123_after : World :=
  {| coordinator :=
       with_node cluster_123
                 (storeData (localNode cluster_123) "user:1" (Json "John") 1 1001);
     remotes := [("node-2", storeData (new_Node "node-2") "user:1" (Json "John") 1 1003);
                 ("node-3", storeData (new_Node "node-3") "user:1" (Json "John") 1 1003)] |}.

Definition world_123_result : PutResult :=
  {| success := true; key := "user:1";
     replicaNodes := [Some "node-1"; Some "node-3"; Some "node-2"];
     successfulWrites := 3; put_quorumSize := 2; quorumAchieved := true;
     writeResults :=
       [{| wr_nodeId := "node-1"; wr_success := true; wr_error := None |};
        {| wr_nodeId := "node-3"; wr_success := true; wr_error := None |};
        {| wr_nodeId := "node-2"; wr_success := true; wr_error := None |}] |}.

(** ** The rest of the three classes *)

(** Eight 32-bit words: the shape of a SHA-256 state. *)
Definition word_list (h : list Z) : Prop :=
  length h = 8%nat /\ Forall (fun w => 0 <= w < 2 ^ 32) h.

(** [getNodeInfo] and [getStats] of [ConsistentHashing]. *)
Definition getNodeInfo (c : ConsistentHashing) (nodeId : string) : option NodeInfo :=
  Map_get (nodes c) nodeId.

Record RingStats := {
  totalNodes : nat;
  stats_virtualNodes : nat;
  stats_replicationFactor : nat;
  ringSize : nat
}.

Definition getStats (c : ConsistentHashing) : RingStats :=
  {| totalNodes := Map_size (nodes c);
     stats_virtualNodes := virtualNodes c;
     stats_replicationFactor := replicationFactor c;
     ringSize := Map_size (ring c) |}.

(** The ring states a program can build: the constructor's, and what
    [addNode] and [removeNode] make of one. *)
Inductive reachable : ConsistentHashing -> Prop :=
| reachable_new (R V : nat) : reachable (new_ConsistentHashing R V)
| reachable_addNode (c : ConsistentHashing) (x : string) (info : NodeInfo) :
    reachable c -> reachable (addNode x info c)
| reachable_removeNode (c : ConsistentHashing) (x : string) :
    reachable c -> reachable (snd (removeNode x c)).

(** The virtual positions of a node in a ring of [V] virtual nodes per node. *)
Definition positionsOf (V : nat) (nodeId : string) : list Z :=
  virtualPosition nodeId <$> seq 0 V.

(** What [addNode] and [removeNode] keep true of a ring state: the position
    list is the sorted key list of the ring map; neither map repeats a key;
    every ring entry belongs to a node of the table, at one of that node's
    virtual positions. *)
Definition ring_inv (c : ConsistentHashing) : Prop :=
  sortedHashes c = sort_numeric (Map_keys (ring c))
  /\ NoDup (Map_keys (ring c))
  /\ NoDup (Map_keys (nodes c))
  /\ Forall (fun e => snd e ∈ Map_keys (nodes c)
                      /\ fst e ∈ positionsOf (virtualNodes c) (snd e))
            (ring c).

(** Two nodes of a ring with three virtual nodes per node. *)
Definition ring_AB : ConsistentHashing :=
  Eval vm_compute in
    addNode "B" (alive "localhost:3002")
      (addNode "A" (alive "localhost:3001") (new_ConsistentHashing 3 3)).

(** ** The life of a node

    Everything that changes a node after its constructor: the [storeData] a
    coordinating [put] calls, the socket handlers of [setupSocketIO] and the
    failure check of the heartbeat timer, each with the [Date.now()] it
    reads. *)

Inductive NodeEvent :=
| local_store (key : string) (value : Value) (version now : Z)
| recv_replicate_data (data : DataMessage) (now : Z)
| recv_write_request (data : DataMessage) (now : Z)
| recv_identify (peerId peerAddress : string) (sock : Socket) (now : Z)
| recv_heartbeat (peerId : string) (now : Z)
| recv_disconnect (peerId : string)
| timer_check (now : Z) (bnow : string -> Z).

Definition node_step (n : Node) (e : NodeEvent) : Node :=
  match e with
  | local_store key value version now => storeData n key value version now
  | recv_replicate_data data now => handleReplication n data now
  | recv_write_request data now => fst (handleWriteRequest n data now)
  | recv_identify peerId peerAddress sock now => onIdentify n peerId peerAddress sock now
  | recv_heartbeat peerId now => onHeartbeat n peerId now
  | recv_disconnect peerId => onDisconnect n peerId
  | timer_check now bnow => fst (checkForFailedNodes n now bnow)
  end.

Definition node_run (n : Node) (events : list NodeEvent) : Node :=
  fold_left node_step events n.

(** The clock reading of an event, and the key it writes. *)
Definition event_now (e : NodeEvent) : option Z :=
  match e with
  | local_store _ _ _ now | recv_replicate_data _ now | recv_write_request _ now
  | recv_identify _ _ _ now | recv_heartbeat _ now | timer_check now _ => Some now
  | recv_disconnect _ => None
  end.

Definition event_key (e : NodeEvent) : option string :=
  match e with
  | local_store key _ _ _ => Some key
  | recv_replicate_data data _ | recv_write_request data _ => Some (msg_key data)
  | _ => None
  end.

(** A clock that never runs backwards: every reading is at or after the
    previous one, the first at or after [t]. *)
Fixpoint clock_from (t : Z) (events : list NodeEvent) : Prop :=
  match events with
  | [] => True
  | e :: events =>
      match event_now e with
      | Some now => t <= now /\ clock_from now events
      | None => clock_from t events
      end
  end.

Definition clock_after (t : Z) (events : list NodeEvent) : Z :=
  fold_left (fun t e => default t (event_now e)) events t.

(** The ids whose last heartbeat is older than the threshold at [now]. *)
Definition stale (now : Z) (heartbeats : list (string * Z)) : list string :=
  fst <$> filter (fun e => now - snd e > failureThreshold) heartbeats.

(** A node some time after its constructor. *)
Definition born (n : Node) : Prop :=
  exists id events, n = node_run (new_Node id) events.

(** ** Reading through the coordinator

    A peer answers a [read_request] with [handleReadRequest] on its store;
    [answers id] tells whether the answer of [id] is back before the 3 s
    timer. *)
Definition world_replies (w : World) (answers : string -> bool) (key : string)
    (id : string) : ReadReply :=
  match Map_get (remotes w) id with
  | Some n => if answers id then Replied (handleReadRequest n key) else NoReply
  | None => NoReply
  end.

Definition world_get (fuel : nat) (w : World) (key : string) (answers : string -> bool)
  : option (HttpResponse GetResult) :=
  http_get fuel (coordinator w) key (world_replies w answers key).

(** ** [getClusterStatus] *)

Record NodeStatus := {
  ns_nodeId : string;
  ns_status : string;
  ns_address : option string       (* [getNodeInfo(nodeId)?.address] *)
}.

Record ClusterStatus := {
  cs_localNode : string;
  cs_totalNodes : nat;
  cs_aliveNodes : nat;
  cs_replicationFactor : nat;
  cs_quorumSize : nat;
  cs_nodes : list NodeStatus
}.

Definition aliveNodes (c : Cluster) : list string :=
  filter (fun nodeId' => nodeId' = nodeId (localNode c)
                         \/ Map_has (peers (localNode c)) nodeId' = true)
         (getAllNodes (consistentHashing c)).

Definition getClusterStatus (c : Cluster) : ClusterStatus :=
  let allNodes := getAllNodes (consistentHashing c) in
  {| cs_localNode := nodeId (localNode c);
     cs_totalNodes := length allNodes;
     cs_aliveNodes := length (aliveNodes c);
     cs_replicationFactor := cluster_replicationFactor c;
     cs_quorumSize := quorumSize c;
     cs_nodes :=
       fmap (fun nodeId' =>
               {| ns_nodeId := nodeId';
                  ns_status := if bool_decide (nodeId' ∈ aliveNodes c)
                               then "alive" else "failed";
                  ns_address := address <$> getNodeInfo (consistentHashing c) nodeId' |})
            allNodes |}.

(** ** [getRingStatus] and the merge loop of [joinCluster]

    [getRingStatus] answers [GET /cluster/ring]: the statistics of the ring
    and, for every id of the node table, the id with its descriptor spread
    next to it ([None] when [getNodeInfo] gives [undefined]). A joining node
    adds every entry it receives whose id is not its own, with the entry as
    descriptor. *)

Record RingStatus := {
  rs_stats : RingStats;
  rs_nodes : list (string * option NodeInfo)
}.

Definition getRingStatus (c : Cluster) : RingStatus :=
  {| rs_stats := getStats (consistentHashing c);
     rs_nodes := fmap (fun nodeId' => (nodeId', getNodeInfo (consistentHashing c) nodeId'))
                      (getAllNodes (consistentHashing c)) |}.

(** The loop [for (const nodeInfo of ringInfo.nodes)] of [joinCluster], on
    entries that carry an address and a status. *)
Definition joinRing (c : Cluster) (received : list (string * NodeInfo)) : Cluster :=
  fold_left
    (fun c nodeInfo =>
       if decide (fst nodeInfo <> nodeId (localNode c))
       then with_ring c (addNode (fst nodeInfo) (snd nodeInfo) (consistentHashing c))
       else c)
    received c.

(** * Properties *)

Example sha256_abc :
  SHA256.hexdigest "abc"
  = "ba7816bf8f01cfea414140de5dae2223b00361a396177a9cb410ff61f20015ad".
Proof. vm_compute. reflexivity. Qed.

Example sha256_empty :
  SHA256.hexdigest ""
  = "e3b0c44298fc1c149afbf4c8996fb92427ae41e4649b934ca495991b7852b855".
Proof. vm_compute. reflexivity. Qed.

(** The two virtual keys that share a ring position. *)
Example position_collision :
  virtualPosition "node-124793" 140 = virtualPosition "node-1" 54.
Proof. vm_compute. reflexivity. Qed.

(** ** The concrete rings are what [addNode] computes *)

Lemma ring_1_eq :
  ring_1 = addNode "node-1" (alive "localhost:3001") (new_ConsistentHashing 3 150).
Proof. vm_compute. reflexivity. Qed.

Lemma ring_12_eq : ring_12 = addNode "node-2" (alive "localhost:3002") ring_1.
Proof. vm_compute. reflexivity. Qed.

Lemma ring_123_eq : ring_123 = addNode "node-3" (alive "localhost:3003") ring_12.
Proof. vm_compute. reflexivity. Qed.

Lemma ring_single_eq :
  ring_single = addNode "node-1" (alive "localhost:3001") (new_ConsistentHashing 1 150).
Proof. vm_compute. reflexivity. Qed.

Lemma ring_1_stranger_eq :
  ring_1_stranger = addNode "node-124793" (alive "localhost:3004") ring_1.
Proof. vm_compute. reflexivity. Qed.

Lemma ring_collided_eq :
  ring_collided
  = addNode "node-147767" (alive "localhost:3002")
      (addNode "node-94893" (alive "localhost:3001") (new_ConsistentHashing 3 1)).
Proof. vm_compute. reflexivity. Qed.

Lemma cluster_single_eq : cluster_single = createNode 1 "node-1" "localhost:3001".
Proof. unfold cluster_single, createNode. rewrite ring_single_eq. reflexivity. Qed.

Lemma cluster_123_unlinked_eq :
  cluster_123_unlinked
  = cluster_addNode
      (cluster_addNode (createNode 3 "node-1" "localhost:3001") "node-2" "localhost:3002")
      "node-3" "localhost:3003".
Proof.
  unfold cluster_123_unlinked, cluster_addNode, with_ring, createNode;
    cbn [consistentHashing cluster_replicationFactor localNode quorumSize].
  rewrite ring_123_eq, ring_12_eq, ring_1_eq. reflexivity.
Qed.

(** ** Maps *)

Section JSMapFacts.
Context {K V : Type} `{EqDecision K}.
Implicit Types (m : list (K * V)) (k : K) (v : V).

Lemma Map_get_set_eq m k v : Map_get (Map_set m k v) k = Some v.
Proof.
  induction m as [|[k' v'] m IH]; simpl.
  - by rewrite decide_True.
  - destruct (decide (k' = k)) as [->|Hne]; simpl.
    + by rewrite decide_True.
    + by rewrite decide_False.
Qed.

Lemma Map_get_set_ne m k k' v : k <> k' -> Map_get (Map_set m k v) k' = Map_get m k'.
Proof.
  intros Hne. induction m as [|[k0 v0] m IH]; simpl.
  - by rewrite decide_False.
  - destruct (decide (k0 = k)) as [->|Hne0]; simpl.
    + by rewrite !decide_False.
    + destruct (decide (k0 = k')); auto.
Qed.

Lemma Map_get_delete_eq m k : Map_get (Map_delete m k) k = None.
Proof.
  induction m as [|[k' v'] m IH]; simpl; auto.
  destruct (decide (k' = k)); simpl; auto. by rewrite decide_False.
Qed.

Lemma Map_get_delete_ne m k k' : k <> k' -> Map_get (Map_delete m k) k' = Map_get m k'.
Proof.
  intros Hne. induction m as [|[k0 v0] m IH]; simpl; auto.
  destruct (decide (k0 = k)) as [->|Hne0]; simpl.
  - by rewrite decide_False.
  - destruct (decide (k0 = k')); auto.
Qed.

Lemma Map_get_Some_elem m k v : Map_get m k = Some v -> (k, v) ∈ m.
Proof.
  induction m as [|[k' v'] m IH]; simpl; [done|].
  destruct (decide (k' = k)) as [->|Hne].
  - intros [= ->]. left.
  - intros H. right. auto.
Qed.

Lemma Map_get_None m k : Map_get m k = None <-> k ∉ Map_keys m.
Proof.
  unfold Map_keys. induction m as [|[k' v'] m IH]; simpl.
  - split; [intros _; apply not_elem_of_nil | done].
  - rewrite not_elem_of_cons. destruct (decide (k' = k)) as [->|Hne]; simpl.
    + split; [done | intros [? _]; done].
    + rewrite IH. split; [intros ?; split; auto | intros [_ ?]; done].
Qed.

Lemma Map_get_is_Some m k : k ∈ Map_keys m -> is_Some (Map_get m k).
Proof.
  intros Hin. destruct (Map_get m k) eqn:E; [by eexists|].
  apply Map_get_None in E. done.
Qed.

Lemma Map_set_absent m k v : k ∉ Map_keys m -> Map_set m k v = m ++ [(k, v)].
Proof.
  unfold Map_keys. induction m as [|[k' v'] m IH]; simpl; [done|].
  rewrite not_elem_of_cons. intros [Hne Hm].
  rewrite decide_False by done. by rewrite IH.
Qed.

Lemma Map_set_app_r m1 m2 k v :
  k ∉ Map_keys m1 -> Map_set (m1 ++ m2) k v = m1 ++ Map_set m2 k v.
Proof.
  unfold Map_keys. induction m1 as [|[k' v'] m1 IH]; simpl; [done|].
  rewrite not_elem_of_cons. intros [Hne Hm].
  rewrite decide_False by done. by rewrite IH.
Qed.

Lemma Map_delete_absent m k : k ∉ Map_keys m -> Map_delete m k = m.
Proof.
  unfold Map_keys. induction m as [|[k' v'] m IH]; simpl; [done|].
  rewrite not_elem_of_cons. intros [Hne Hm].
  rewrite decide_False by done. by rewrite IH.
Qed.

Lemma Map_delete_app m1 m2 k :
  Map_delete (m1 ++ m2) k = Map_delete m1 k ++ Map_delete m2 k.
Proof.
  induction m1 as [|[k' v'] m1 IH]; simpl; [done|].
  destruct (decide (k' = k)); simpl; by rewrite IH.
Qed.

Lemma Map_keys_set m k v k' : k' ∈ Map_keys (Map_set m k v) <-> k' = k \/ k' ∈ Map_keys m.
Proof.
  unfold Map_keys. induction m as [|[k0 v0] m IH]; simpl.
  - rewrite list_elem_of_singleton. split; [auto | intros [?|Hin]; [done|]].
    by apply elem_of_nil in Hin.
  - destruct (decide (k0 = k)) as [->|Hne]; simpl; rewrite !elem_of_cons.
    + tauto.
    + rewrite IH. tauto.
Qed.

Lemma Map_keys_delete m k k' : k' ∈ Map_keys (Map_delete m k) -> k' ∈ Map_keys m.
Proof.
  unfold Map_keys. induction m as [|[k0 v0] m IH]; simpl; [done|].
  destruct (decide (k0 = k)) as [->|Hne]; simpl; rewrite !elem_of_cons; tauto.
Qed.

Lemma Map_has_true m k : Map_has m k = true <-> k ∈ Map_keys m.
Proof.
  unfold Map_has. destruct (Map_get m k) eqn:E.
  - split; [intros _|done]. destruct (decide (k ∈ Map_keys m)) as [|Hn]; [done|].
    apply Map_get_None in Hn. congruence.
  - apply Map_get_None in E. split; [done | intros; done].
Qed.
End JSMapFacts.

(** ** The local store *)

Lemma storeData_get (n : Node) (key : string) (value : Value) (version now : Z) :
  Map_get (data (storeData n key value version now)) key = Some value
  /\ Map_get (metadata (storeData n key value version now)) key
     = Some {| version := version; timestamp := now; meta_nodeId := nodeId n |}.
Proof. simpl. split; apply Map_get_set_eq. Qed.

Lemma getData_storeData (n : Node) (key : string) (value : Value) (version now : Z) :
  getData (storeData n key value version now) key
  = if decide (value <> Undefined)
    then Some {| value := value;
                 rec_metadata := Some {| version := version; timestamp := now;
                                         meta_nodeId := nodeId n |} |}
    else None.
Proof.
  unfold getData, data_get.
  destruct (storeData_get n key value version now) as [-> ->]. reflexivity.
Qed.

(** What [handleReplication] does, case by case. *)
Lemma handleReplication_cases (n : Node) (d : DataMessage) (now : Z) :
  let stored := storeData n (msg_key d) (msg_value d) (version (msg_metadata d)) now in
  match Map_get (metadata n) (msg_key d) with
  | None => handleReplication n d now = stored
  | Some existing =>
      (timestamp existing < timestamp (msg_metadata d) -> handleReplication n d now = stored)
      /\ (timestamp (msg_metadata d) <= timestamp existing -> handleReplication n d now = n)
  end.
Proof.
  unfold handleReplication. destruct (Map_get (metadata n) (msg_key d)) as [e|]; [|done].
  destruct (Z.gtb_spec (timestamp (msg_metadata d)) (timestamp e)); split; intros; (done || lia).
Qed.

(** C9: a [write_request] always replaces the stored record, stamps it with
    the receiver's clock and answers [{success: true, nodeId}], whatever is
    stored; when the stored record is as recent as the incoming one or more,
    a [replicate_data] with the same payload leaves the node as it is. *)
Theorem handleWriteRequest_overwrites (n : Node) (d : DataMessage) (now : Z) :
  snd (handleWriteRequest n d now) = {| reply_success := true; reply_nodeId := nodeId n |}
  /\ Map_get (data (fst (handleWriteRequest n d now))) (msg_key d) = Some (msg_value d)
  /\ Map_get (metadata (fst (handleWriteRequest n d now))) (msg_key d)
     = Some {| version := version (msg_metadata d); timestamp := now;
               meta_nodeId := nodeId n |}
  /\ forall existing,
       Map_get (metadata n) (msg_key d) = Some existing ->
       timestamp (msg_metadata d) <= timestamp existing ->
       handleReplication n d now = n.
Proof.
  unfold handleWriteRequest; simpl.
  repeat split; try apply Map_get_set_eq.
  intros existing Hex Hle.
  pose proof (handleReplication_cases n d now) as Hc. rewrite Hex in Hc.
  by apply Hc.
Qed.

(** The same write without a stored record. *)
Lemma handleWriteRequest_fresh (n : Node) (d : DataMessage) (now : Z) :
  handleWriteRequest n d now
  = (storeData n (msg_key d) (msg_value d) (version (msg_metadata d)) now,
     {| reply_success := true; reply_nodeId := nodeId n |}).
Proof. reflexivity. Qed.

Lemma handleWriteRequest_overwrites_witness :
  let n := storeData (new_Node "node-1") "k" (Json "new") 1 1000 in
  Map_get (data (fst (handleWriteRequest n stale_write 1001))) "k" = Some (Json "old")
  /\ handleReplication n stale_write 1001 = n.
Proof.
  intros n.
  destruct (handleWriteRequest_overwrites n stale_write 1001) as (_ & Hd & _ & Hr).
  split; [exact Hd|].
  apply (Hr {| version := 1; timestamp := 1000; meta_nodeId := "node-1" |}).
  - reflexivity.
  - simpl. lia.
Defined.



(** C3, the failing case: node 3 receives the write node 1 coordinated at
    1000 when its own clock reads 1005, then the write node 2 coordinated at
    1002; the second, newer write is dropped and [getData] returns the first. *)
Lemma replication_drops_newer_write :
  let n := replications (new_Node "node-3") [(first_write, 1005); (second_write, 1006)] in
  timestamp (msg_metadata first_write) < timestamp (msg_metadata second_write)
  /\ getData n "k"
     = Some {| value := Json "v1";
               rec_metadata := Some {| version := 1; timestamp := 1005;
                                       meta_nodeId := "node-3" |} |}
  /\ value <$> getData n "k" <> Some (msg_value second_write).
Proof. vm_compute. repeat split; congruence. Qed.

(** ** The fan-out of a PUT *)

Lemma replicateToPeers_nodeIds (n : Node) (acked : string -> bool)
    (targetNodes : list (option string)) :
  wr_nodeId <$> replicateToPeers n acked targetNodes
  = filter (fun id => id <> nodeId n /\ linked n id = true)
           (omap (fun t => t) targetNodes).
Proof.
  induction targetNodes as [|[id|] rest IH]; simpl; auto.
  destruct (decide (id = nodeId n)) as [->|Hne].
  - rewrite filter_cons_False; [done | intros [? _]; done].
  - destruct (linked n id) eqn:El; unfold linked in El;
      destruct (Map_get (peers n) id) as [[? ? [sock|] ?]|] eqn:E; try discriminate.
    + rewrite filter_cons_True. 2:{ split; [done|]. unfold linked. by rewrite E. }
      rewrite fmap_cons, IH. by destruct (acked id).
    + rewrite filter_cons_False; [done|]. unfold linked. rewrite E. intros [_ ?]; done.
    + rewrite filter_cons_False; [done|]. unfold linked. rewrite E. intros [_ ?]; done.
Qed.

Lemma replicateToPeers_outcome (n : Node) (acked : string -> bool)
    (targetNodes : list (option string)) (r : WriteResult) :
  r ∈ replicateToPeers n acked targetNodes ->
  r = (if acked (wr_nodeId r)
       then {| wr_nodeId := wr_nodeId r; wr_success := true; wr_error := None |}
       else {| wr_nodeId := wr_nodeId r; wr_success := false;
               wr_error := Some "timeout" |}).
Proof.
  induction targetNodes as [|[id|] rest IH]; simpl.
  - intros H. by apply elem_of_nil in H.
  - destruct (decide (id = nodeId n)); [done|].
    destruct (Map_get (peers n) id) as [[? ? [sock|] ?]|]; try done.
    rewrite elem_of_cons. intros [->|Hin]; [|auto].
    destruct (acked id) eqn:E; simpl; by rewrite E.
  - done.
Qed.

Lemma put_inv (fuel : nat) (c c' : Cluster) (key : string) (value : Value)
    (now_put now_store : Z) (acked : string -> bool) (r : PutResult) :
  put fuel c key value now_put now_store acked = Some (c', r) ->
  let self := nodeId (localNode c) in
  let node' := if includes (replicaNodes r) self
               then storeData (localNode c) key value 1 now_store else localNode c in
  getReplicaNodes fuel (consistentHashing c) key = Some (replicaNodes r)
  /\ c' = with_node c node'
  /\ writeResults r
     = (if includes (replicaNodes r) self
        then [{| wr_nodeId := self; wr_success := true; wr_error := None |}] else [])
       ++ replicateToPeers node' acked (replicaNodes r)
  /\ successfulWrites r = length (filter (fun x => wr_success x = true) (writeResults r))
  /\ success r = (quorumSize c <=? successfulWrites r)%nat.
Proof.
  unfold put. destruct (getReplicaNodes fuel (consistentHashing c) key) as [l|]; [|done].
  intros [= <- <-]. simpl. repeat split; reflexivity.
Qed.

(** C8, the failing case: node 2 is in the ring of node 1 and is a replica
    of ["user:2"], node 1 has no link to it any more, and the PUT that node 1
    coordinates returns results for node 1 and node 3 and none for node 2. *)
Lemma put_omits_unlinked_replica :
  (fun x => (replicaNodes (snd x), writeResults (snd x)))
    <$> put 451 cluster_123_after_failure "user:2" (Json "Jane") 12001 12001 all_ack
  = Some ([Some "node-3"; Some "node-2"; Some "node-1"],
          [{| wr_nodeId := "node-1"; wr_success := true; wr_error := None |};
           {| wr_nodeId := "node-3"; wr_success := true; wr_error := None |}]).
Proof. vm_compute. reflexivity. Qed.

(** ** Failure detection *)

Lemma checkForFailedNodes_ring (c : Cluster) (now : Z) (bnow : string -> Z) :
  consistentHashing (fst (cluster_checkForFailedNodes c now bnow)) = consistentHashing c.
Proof. reflexivity. Qed.

(** C1, the failing case: node 2 last spoke at 0, node 3 at 5000, and the
    detector of node 1 runs at 12000; node 2 leaves the peer table and the
    heartbeat map and its failure is announced to node 3, but it stays in the
    ring, and the next PUT that node 1 coordinates lists it as a replica. *)
Lemma failed_peer_stays_in_ring :
  (Map_get (lastHeartbeat (localNode cluster_123)) "node-2",
   12000 - 0 >? failureThreshold,
   snd (cluster_checkForFailedNodes cluster_123 12000 (fun _ => 12000)),
   Map_has (peers (localNode cluster_123_after_failure)) "node-2",
   Map_has (lastHeartbeat (localNode cluster_123_after_failure)) "node-2",
   Map_has (nodes (consistentHashing cluster_123_after_failure)) "node-2",
   (fun x => replicaNodes (snd x))
     <$> put 451 cluster_123_after_failure "user:2" (Json "Jane") 12001 12001 no_ack)
  = (Some 0, true, [("node-3", node_failure "node-2" "node-1" 12000)],
     false, false, true, Some [Some "node-3"; Some "node-2"; Some "node-1"]).
Proof. vm_compute. reflexivity. Qed.

(** ** Reading a key *)





Lemma latestResult_first_max (first : ReadResult) (rest : list ReadResult) (x : ReadResult) :
  latestResult first rest = Normal x ->
  exists i : nat,
    (first :: rest) !! i = Some x
    /\ forall (j : nat) y ty tx,
         (first :: rest) !! j = Some y ->
         result_timestamp y = Some ty -> result_timestamp x = Some tx ->
         ty <= tx /\ ((j < i)%nat -> ty < tx).
Proof.
  unfold latestResult. revert x.
  induction rest as [|cur rest IH] using rev_ind; intros x.
  - simpl. intros [= <-]. exists 0%nat. split; [done|].
    intros [|j] y ty tx Hy Hty Htx; simpl in Hy; [|done].
    injection Hy as <-. rewrite Hty in Htx. injection Htx as <-. lia.
  - rewrite fold_left_app. simpl.
    destruct (fold_left later rest (Normal first)) as [a|] eqn:Ha; [|done].
    destruct (IH a eq_refl) as (i & Hi & Hmax).
    unfold later.
    destruct (result_timestamp cur) as [tc|] eqn:Htc; [|done].
    destruct (result_timestamp a) as [ta|] eqn:Hta; [|done].
    intros [= <-]. rewrite app_comm_cons.
    pose proof (lookup_lt_Some _ _ _ Hi) as Hlt.
    destruct (Z.gtb_spec tc ta) as [Hgt|Hle].
    + exists (length (first :: rest)). split.
      { rewrite lookup_app_r by lia. by rewrite Nat.sub_diag. }
      intros j y ty tx Hy Hty Htx. rewrite Htc in Htx. injection Htx as <-.
      destruct (decide (j < length (first :: rest))%nat) as [Hj|Hj].
      * rewrite lookup_app_l in Hy by done.
        destruct (Hmax j y ty ta Hy Hty eq_refl). lia.
      * rewrite lookup_app_r in Hy by lia.
        destruct (j - length (first :: rest))%nat eqn:Hd; simpl in Hy; [|done].
        injection Hy as <-. rewrite Htc in Hty. injection Hty as <-. lia.
    + exists i. split; [by rewrite lookup_app_l|].
      intros j y ty tx Hy Hty Htx. rewrite Hta in Htx. injection Htx as <-.
      destruct (decide (j < length (first :: rest))%nat) as [Hj|Hj].
      * rewrite lookup_app_l in Hy by done. eauto.
      * rewrite lookup_app_r in Hy by lia.
        destruct (j - length (first :: rest))%nat eqn:Hd; simpl in Hy; [|done].
        injection Hy as <-. rewrite Htc in Hty. injection Hty as <-. lia.
Qed.

(** C5, as the code has it: the record a GET returns is the first, in the
    order of collection (the local record, then the peers in replica order),
    among those with the largest timestamp. *)
Theorem get_returns_first_latest (fuel : nat) (c : Cluster) (key : string)
    (replies : string -> ReadReply) (g : GetResult) :
  get fuel c key replies = Some (Normal (Some g)) ->
  exists (replicaNodes : list (option string)) (x : ReadResult) (i : nat),
    getReplicaNodes fuel (consistentHashing c) key = Some replicaNodes
    /\ collectReads c key replies replicaNodes !! i = Some x
    /\ rr_data x = Some {| value := get_value g; rec_metadata := get_metadata g |}
    /\ readResults g = length (collectReads c key replies replicaNodes)
    /\ forall (j : nat) y ty tx,
         collectReads c key replies replicaNodes !! j = Some y ->
         result_timestamp y = Some ty -> result_timestamp x = Some tx ->
         ty <= tx /\ ((j < i)%nat -> ty < tx).
Proof.
  unfold get.
  destruct (getReplicaNodes fuel (consistentHashing c) key) as [replicaNodes|]; [|done].
  destruct (collectReads c key replies replicaNodes) as [|first rest] eqn:Hl; [done|].
  destruct (latestResult first rest) as [x|] eqn:Hx; [|done].
  destruct (rr_data x) as [d|] eqn:Hd; [|done].
  intros [= <-]. simpl.
  destruct (latestResult_first_max first rest x Hx) as (i & Hi & Hmax).
  exists replicaNodes, x, i. rewrite Hl.
  split; [done|]. split; [done|]. split; [by destruct d|]. split; [done|].
  exact Hmax.
Qed.

(** C5, the failing case: nodes 2 and 3 hold different records of the same
    key with the same timestamp. For ["user:1"], whose replicas are met in
    the order 1, 3, 2, the GET returns the record of origin node 3; for
    ["test:3"], met in the order 2, 1, 3, the record of origin node 2. *)
Lemma get_tie_is_not_lexicographic :
  (getReplicaNodes 451 (consistentHashing cluster_123) "user:1",
   chosen (get 451 cluster_123 "user:1" (replies_tie "user:1")),
   getReplicaNodes 451 (consistentHashing cluster_123) "test:3",
   chosen (get 451 cluster_123 "test:3" (replies_tie "test:3")),
   String.ltb "node-2" "node-3")
  = (Some [Some "node-1"; Some "node-3"; Some "node-2"],
     Some (Json "b", Some {| version := 1; timestamp := 1000; meta_nodeId := "node-3" |}),
     Some [Some "node-2"; Some "node-1"; Some "node-3"],
     Some (Json "a", Some {| version := 1; timestamp := 1000; meta_nodeId := "node-2" |}),
     true).
Proof. vm_compute. reflexivity. Qed.

Lemma get_returns_first_latest_witness :
  exists (replicaNodes : list (option string)) (x : ReadResult) (i : nat),
    getReplicaNodes 451 (consistentHashing cluster_123) "user:1" = Some replicaNodes
    /\ collectReads cluster_123 "user:1" (replies_tie "user:1") replicaNodes !! i = Some x
    /\ rr_data x = Some {| value := Json "b"; rec_metadata := get_metadata tie_result |}
    /\ readResults tie_result
       = length (collectReads cluster_123 "user:1" (replies_tie "user:1") replicaNodes)
    /\ forall (j : nat) y ty tx,
         collectReads cluster_123 "user:1" (replies_tie "user:1") replicaNodes !! j = Some y ->
         result_timestamp y = Some ty -> result_timestamp x = Some tx ->
         ty <= tx /\ ((j < i)%nat -> ty < tx).
Proof.
  apply (get_returns_first_latest 451 cluster_123 "user:1" (replies_tie "user:1") tie_result).
  vm_compute. reflexivity.
Defined.

(** ** The ring under [addNode] and [removeNode] *)

Section VirtualNodes.
Variable f : nat -> Z.       (* the position of the i-th virtual node *)
Variable x : string.         (* the node *)

Local Abbreviation set_all := (set_all f x).
Local Abbreviation delete_all := (delete_all f).

Lemma set_all_owner (idxs : list nat) (m : list (Z * string)) (p : Z) :
  Map_get m p = Some x \/ p ∈ f <$> idxs -> Map_get (set_all idxs m) p = Some x.
Proof.
  revert m. induction idxs as [|i idxs IH]; intros m; simpl.
  - intros [H|H]; [done | by apply elem_of_nil in H].
  - rewrite elem_of_cons. intros H. apply IH.
    destruct (decide (f i = p)) as [<-|Hne].
    + left. apply Map_get_set_eq.
    + destruct H as [H|[H|H]]; [|congruence|by right].
      left. by rewrite Map_get_set_ne.
Qed.

Lemma set_all_other (idxs : list nat) (m : list (Z * string)) (p : Z) :
  p ∉ f <$> idxs -> Map_get (set_all idxs m) p = Map_get m p.
Proof.
  revert m. induction idxs as [|i idxs IH]; intros m; simpl; [done|].
  rewrite not_elem_of_cons. intros [Hne Hp].
  rewrite IH by done. by apply Map_get_set_ne.
Qed.

Lemma set_all_app (idxs : list nat) (m0 l : list (Z * string)) :
  Forall (fun i => f i ∉ Map_keys m0) idxs ->
  set_all idxs (m0 ++ l) = m0 ++ set_all idxs l.
Proof.
  revert l. induction idxs as [|i idxs IH]; intros l Hf; simpl; [done|].
  apply Forall_cons in Hf as [Hi Hf].
  rewrite Map_set_app_r by done. by apply IH.
Qed.

Lemma set_all_keys (idxs : list nat) (l : list (Z * string)) (k : Z) :
  k ∈ Map_keys (set_all idxs l) -> k ∈ Map_keys l \/ k ∈ f <$> idxs.
Proof.
  revert l. induction idxs as [|i idxs IH]; intros l; simpl; [by left|].
  intros H. apply IH in H as [H|H].
  - apply Map_keys_set in H as [->|H]; [right; left | by left].
  - right. by right.
Qed.

Lemma delete_all_app (idxs : list nat) (m0 l : list (Z * string)) :
  Forall (fun i => f i ∉ Map_keys m0) idxs ->
  delete_all idxs (m0 ++ l) = m0 ++ delete_all idxs l.
Proof.
  revert l. induction idxs as [|i idxs IH]; intros l Hf; simpl; [done|].
  apply Forall_cons in Hf as [Hi Hf].
  rewrite Map_delete_app, (Map_delete_absent m0) by done. by apply IH.
Qed.

Lemma delete_all_nil (idxs : list nat) (l : list (Z * string)) :
  (forall k, k ∈ Map_keys l -> k ∈ f <$> idxs) -> delete_all idxs l = [].
Proof.
  revert l. induction idxs as [|i idxs IH]; intros l Hk; simpl.
  - destruct l as [|[k v] l]; [done|].
    specialize (Hk k). rewrite fmap_nil in Hk.
    exfalso. eapply not_elem_of_nil, Hk. left.
  - apply IH. intros k Hin.
    assert (k <> f i) as Hne.
    { intros ->. apply Map_get_is_Some in Hin as [v Hv].
      by rewrite Map_get_delete_eq in Hv. }
    apply Map_keys_delete in Hin. apply Hk in Hin.
    apply elem_of_cons in Hin as [?|?]; done.
Qed.

Lemma delete_all_keys (idxs : list nat) (l : list (Z * string)) (k : Z) :
  k ∈ Map_keys (delete_all idxs l) -> k ∈ Map_keys l.
Proof.
  revert l. induction idxs as [|i idxs IH]; intros l; simpl; [done|].
  intros H. apply IH in H. by apply Map_keys_delete in H.
Qed.
End VirtualNodes.

(** [addNode] and [removeNode] leave the position list equal to the sorted key
    list of the ring map, as the constructor does. *)
Lemma new_sortedHashes (R V : nat) :
  sortedHashes (new_ConsistentHashing R V)
  = sort_numeric (Map_keys (ring (new_ConsistentHashing R V))).
Proof. reflexivity. Qed.

Lemma addNode_sortedHashes (c : ConsistentHashing) (x : string) (info : NodeInfo) :
  sortedHashes (addNode x info c) = sort_numeric (Map_keys (ring (addNode x info c))).
Proof. reflexivity. Qed.

Lemma removeNode_sortedHashes (c : ConsistentHashing) (x : string) :
  sortedHashes c = sort_numeric (Map_keys (ring c)) ->
  sortedHashes (snd (removeNode x c))
  = sort_numeric (Map_keys (ring (snd (removeNode x c)))).
Proof.
  intros Hc. unfold removeNode. by destruct (negb (Map_has (nodes c) x)).
Qed.

(** Every owner in the ring stays a node of the table under both operations. *)
Lemma addNode_owners (c : ConsistentHashing) (x : string) (info : NodeInfo) :
  Forall (fun e => snd e ∈ Map_keys (nodes c)) (ring c) ->
  forall p id, Map_get (ring (addNode x info c)) p = Some id ->
               id ∈ Map_keys (nodes (addNode x info c)).
Proof.
  intros Hc p id. unfold addNode; simpl. rewrite Forall_forall in Hc.
  fold (set_all (virtualPosition x) x (seq 0 (virtualNodes c)) (ring c)).
  destruct (decide (p ∈ virtualPosition x <$> seq 0 (virtualNodes c))) as [Hin|Hout].
  - rewrite set_all_owner by (by right). intros [= <-].
    apply Map_keys_set. by left.
  - rewrite set_all_other by done. intros Hget.
    apply Map_keys_set. right. apply Map_get_Some_elem in Hget. by apply (Hc (p, id)).
Qed.

(** C7, as the code has it: after [addNode(x)] every virtual position of [x]
    belongs to [x], whoever owned it before. *)
Theorem addNode_takes_position (c : ConsistentHashing) (x : string) (info : NodeInfo)
    (i : nat) :
  (i < virtualNodes c)%nat ->
  Map_get (ring (addNode x info c)) (virtualPosition x i) = Some x.
Proof.
  intros Hi. unfold addNode; simpl.
  apply set_all_owner. right.
  apply list_elem_of_fmap. exists i. split; [done|].
  apply elem_of_seq. lia.
Qed.

Lemma addNode_takes_position_witness :
  Map_get (ring (addNode "node-2" (alive "localhost:3002") ring_1))
          (virtualPosition "node-2" 7) = Some "node-2".
Proof. apply addNode_takes_position. vm_compute. lia. Defined.

(** C7, the failing case: position 2343058463 belongs to node 1; the 141st
    virtual key of the node being added hashes to it, and the new node takes
    the position. *)
Lemma addNode_replaces_owner :
  (virtualPosition "node-1" 54,
   virtualPosition "node-124793" 140,
   Map_get (ring ring_1) 2343058463,
   Map_get (ring (addNode "node-124793" (alive "localhost:3004") ring_1)) 2343058463)
  = (2343058463, 2343058463, Some "node-1", Some "node-124793").
Proof. rewrite <- ring_1_stranger_eq. vm_compute. reflexivity. Qed.

(** C6, as the code has it: [addNode(x)] then [removeNode(x)] restores the
    ring map, the position list and the node table when [x] is new and none
    of its virtual positions is already in the ring. *)
Theorem add_remove_restores (c : ConsistentHashing) (x : string) (info : NodeInfo) :
  sortedHashes c = sort_numeric (Map_keys (ring c)) ->
  x ∉ Map_keys (nodes c) ->
  Forall (fun i => virtualPosition x i ∉ Map_keys (ring c)) (seq 0 (virtualNodes c)) ->
  removeNode x (addNode x info c) = (true, c).
Proof.
  intros Hsorted Hnew Hfree. unfold removeNode, addNode; simpl.
  assert (Map_has (Map_set (nodes c) x info) x = true) as ->.
  { apply Map_has_true, Map_keys_set. by left. }
  simpl. f_equal. destruct c as [R V rg sh nd]; simpl in *.
  fold (set_all (virtualPosition x) x (seq 0 V) rg).
  fold (delete_all (virtualPosition x) (seq 0 V)
          (set_all (virtualPosition x) x (seq 0 V) rg)).
  assert (delete_all (virtualPosition x) (seq 0 V)
            (set_all (virtualPosition x) x (seq 0 V) rg) = rg) as ->.
  { rewrite <- (app_nil_r rg) at 1.
    rewrite set_all_app, delete_all_app by done.
    rewrite delete_all_nil; [apply app_nil_r|].
    intros k Hk. apply set_all_keys in Hk as [Hk|Hk]; [|done].
    by apply elem_of_nil in Hk. }
  f_equal; [done|].
  rewrite Map_set_absent, Map_delete_app, Map_delete_absent by done.
  simpl. rewrite decide_True by done. apply app_nil_r.
Qed.

Lemma add_remove_restores_witness :
  removeNode "node-2" (addNode "node-2" (alive "localhost:3002") ring_1) = (true, ring_1).
Proof.
  apply add_remove_restores.
  - vm_compute. reflexivity.
  - apply (bool_decide_unpack _). vm_compute. exact I.
  - apply (bool_decide_unpack _). vm_compute. exact I.
Defined.

(** C6, the failing case: the node added shares position 2343058463 with
    node 1; removing it again deletes the position, and node 1 is left with
    149 of its 150 positions. *)
Lemma add_remove_loses_position :
  let c := snd (removeNode "node-124793"
                  (addNode "node-124793" (alive "localhost:3004") ring_1)) in
  (Map_has (nodes ring_1) "node-124793",
   Map_get (ring ring_1) 2343058463, length (ring ring_1), length (sortedHashes ring_1),
   Map_get (ring c) 2343058463, length (ring c), length (sortedHashes c))
  = (false, Some "node-1", 150%nat, 150%nat, None, 149%nat, 149%nat).
Proof. rewrite <- ring_1_stranger_eq. vm_compute. reflexivity. Qed.

(** ** Sets in insertion order *)

Section Distinct.
Context {A : Type} `{EqDecision A}.
Implicit Types (s l : list A) (x y : A).

Lemma elem_of_Set_add x y s : y ∈ Set_add x s <-> y = x \/ y ∈ s.
Proof.
  unfold Set_add. destruct (decide (x ∈ s)) as [Hin|Hout].
  - split; [by right | intros [->|?]; done].
  - rewrite elem_of_app, list_elem_of_singleton. tauto.
Qed.

Lemma NoDup_Set_add x s : NoDup s -> NoDup (Set_add x s).
Proof.
  unfold Set_add. intros Hs. destruct (decide (x ∈ s)) as [Hin|Hout]; [done|].
  apply NoDup_app. split; [done|]. split; [|apply NoDup_singleton].
  intros y Hy. rewrite list_elem_of_singleton. by intros ->.
Qed.

Lemma length_Set_add x s : (length (Set_add x s) <= S (length s))%nat.
Proof.
  unfold Set_add. destruct (decide (x ∈ s)); [lia|].
  rewrite length_app. simpl. lia.
Qed.

Lemma Set_add_extends x s : exists t, Set_add x s = s ++ t.
Proof.
  unfold Set_add. destruct (decide (x ∈ s)).
  - exists []. by rewrite app_nil_r.
  - by exists [x].
Qed.









End Distinct.


(** ** The sorted position list *)

Lemma insert_sorted_Permutation (x : Z) (l : list Z) : insert_sorted x l ≡ₚ x :: l.
Proof.
  induction l as [|y l IH]; simpl; [done|].
  destruct (x <=? y); [done|]. rewrite IH. apply Permutation_swap.
Qed.

Lemma sort_numeric_Permutation (l : list Z) : sort_numeric l ≡ₚ l.
Proof.
  induction l as [|x l IH]; simpl; [done|].
  rewrite insert_sorted_Permutation. by rewrite IH.
Qed.

Lemma elem_of_sort_numeric (l : list Z) (x : Z) : x ∈ sort_numeric l <-> x ∈ l.
Proof. by rewrite sort_numeric_Permutation. Qed.

Lemma insert_sorted_sorted (x : Z) (l : list Z) :
  StronglySorted Z.le l -> StronglySorted Z.le (insert_sorted x l).
Proof.
  induction 1 as [|y l Hl IH Hy]; simpl.
  - constructor; [constructor | constructor].
  - destruct (Z.leb_spec x y).
    + constructor; [by constructor|].
      constructor; [done|]. eapply Forall_impl; [exact Hy|]. simpl. intros; lia.
    + constructor; [done|].
      rewrite insert_sorted_Permutation. constructor; [lia | done].
Qed.

Lemma sort_numeric_sorted (l : list Z) : StronglySorted Z.le (sort_numeric l).
Proof.
  induction l as [|x l IH]; simpl; [constructor|]. by apply insert_sorted_sorted.
Qed.

Lemma sorted_lookup_le (l : list Z) (i j : nat) (a b : Z) :
  StronglySorted Z.le l -> l !! i = Some a -> l !! j = Some b -> (i <= j)%nat -> a <= b.
Proof.
  intros Hs. revert i j. induction Hs as [|y l Hl IH Hy]; intros i j Ha Hb Hij.
  - done.
  - destruct i as [|i], j as [|j]; simpl in *; try lia.
    + injection Ha as <-. injection Hb as <-. lia.
    + injection Ha as <-. rewrite Forall_forall in Hy. apply Hy.
      by eapply list_elem_of_lookup_2.
    + eapply IH; eauto. lia.
Qed.

(** ** The replica walk *)



Lemma replicaLoop_NoDup (fuel : nat) (c : ConsistentHashing)
    (replicas r : list (option string)) (currentIndex : nat) :
  NoDup replicas ->
  replicaLoop fuel c replicas currentIndex = Some r -> NoDup r.
Proof.
  revert replicas currentIndex.
  induction fuel as [|fuel IH]; intros replicas currentIndex Hnd; simpl; [done|].
  destruct ((length replicas <? replicationFactor c)%nat
            && (length replicas <? Map_size (nodes c))%nat).
  - apply IH. by apply NoDup_Set_add.
  - by intros [= <-].
Qed.

(** Whatever the ring, what [getReplicaNodes] returns has no repeated id. *)
Lemma getReplicaNodes_NoDup (fuel : nat) (c : ConsistentHashing) (key : string)
    (r : list (option string)) :
  getReplicaNodes fuel c key = Some r -> NoDup r.
Proof.
  unfold getReplicaNodes. destruct (sortedHashes c).
  - intros [= <-]. apply NoDup_nil_2.
  - apply replicaLoop_NoDup, NoDup_nil_2.
Qed.

Lemma startIndex_lt (c : ConsistentHashing) (key : string) :
  sortedHashes c <> [] -> (startIndex c key < length (sortedHashes c))%nat.
Proof.
  intros Hne. unfold startIndex, find_from.
  destruct (list_find _ (sortedHashes c)) as [[i p]|] eqn:E.
  - apply list_find_Some in E as (Hi & _). by eapply lookup_lt_Some.
  - destruct (sortedHashes c); [done | simpl; lia].
Qed.

Lemma getNode_ownerAt (c : ConsistentHashing) (key : string) :
  sortedHashes c <> [] -> getNode c key = ownerAt c (startIndex c key).
Proof.
  intros Hne. unfold getNode, ownerAt, startIndex, find_from.
  destruct (sortedHashes c) as [|first rest] eqn:Hs; [done|].
  destruct (list_find _ (first :: rest)) as [[i p]|] eqn:E.
  - apply list_find_Some in E as (Hi & _). by rewrite Hi.
  - done.
Qed.




Lemma loop_condition (c : ConsistentHashing) (replicas : list (option string)) :
  (length replicas <? replicationFactor c)%nat && (length replicas <? Map_size (nodes c))%nat
  = bool_decide (length replicas < min (replicationFactor c) (Map_size (nodes c)))%nat.
Proof.
  destruct (Nat.ltb_spec (length replicas) (replicationFactor c));
    destruct (Nat.ltb_spec (length replicas) (Map_size (nodes c))); simpl;
    symmetry; (apply bool_decide_eq_true_2 || apply bool_decide_eq_false_2); lia.
Qed.



Lemma primary_position_startIndex (c : ConsistentHashing) (key : string) :
  sortedHashes c = sort_numeric (Map_keys (ring c)) ->
  sortedHashes c <> [] ->
  exists q, sortedHashes c !! startIndex c key = Some q /\ primary_position c key q.
Proof.
  intros Hsorted Hne.
  pose proof (sort_numeric_sorted (Map_keys (ring c))) as Hss. rewrite <- Hsorted in Hss.
  assert (forall q, q ∈ Map_keys (ring c) <-> q ∈ sortedHashes c) as Hkeys.
  { intros q. by rewrite Hsorted, elem_of_sort_numeric. }
  unfold startIndex, find_from, primary_position.
  destruct (list_find _ (sortedHashes c)) as [[i p]|] eqn:E.
  - apply list_find_Some in E as (Hi & Hp & Hbefore).
    exists p. split; [done|]. split; [apply Hkeys; by eapply list_elem_of_lookup_2|].
    left. split; [done|]. intros q' Hq' Hpos.
    apply Hkeys, list_elem_of_lookup_1 in Hq' as [j Hj].
    destruct (decide (j < i)%nat) as [Hlt|Hge].
    + by destruct (Hbefore j q' Hj Hlt).
    + eapply (sorted_lookup_le _ i j); eauto. lia.
  - apply list_find_None in E. rewrite Forall_forall in E.
    destruct (sortedHashes c) as [|q rest] eqn:Hs; [done|].
    exists q. split; [done|]. split; [apply Hkeys; left|].
    right. split.
    + intros q' Hq'. apply Hkeys in Hq'. apply E in Hq'. lia.
    + intros q' Hq'. apply Hkeys, list_elem_of_lookup_1 in Hq' as [j Hj].
      eapply (sorted_lookup_le (q :: rest) 0 j); eauto. lia.
Qed.










(** ** A PUT and the stores of its replicas *)

Lemma replicateToPeers_successes (n : Node) (acked : string -> bool)
    (targetNodes : list (option string)) :
  wr_nodeId <$> filter (fun r => wr_success r = true) (replicateToPeers n acked targetNodes)
  = filter (fun id => (id <> nodeId n /\ linked n id = true) /\ acked id = true)
           (omap (fun t => t) targetNodes).
Proof.
  induction targetNodes as [|[id|] rest IH]; simpl; auto.
  destruct (decide (id = nodeId n)) as [->|Hne].
  - rewrite filter_cons_False; [done | intros [[? _] _]; done].
  - destruct (linked n id) eqn:El; unfold linked in El;
      destruct (Map_get (peers n) id) as [[? ? [sock|] ?]|] eqn:E; try discriminate.
    + destruct (acked id) eqn:Ea.
      * rewrite filter_cons_True by done.
        rewrite (filter_cons_True (fun id => _ /\ acked id = true)).
        2:{ repeat split; try done. unfold linked. by rewrite E. }
        by rewrite fmap_cons, IH.
      * rewrite filter_cons_False by done.
        rewrite (filter_cons_False (fun id => _ /\ acked id = true)); [done|].
        intros [_ ?]. congruence.
    + rewrite filter_cons_False; [done|]. unfold linked. rewrite E. intros [[_ ?] _]; done.
    + rewrite filter_cons_False; [done|]. unfold linked. rewrite E. intros [[_ ?] _]; done.
Qed.

Lemma NoDup_omap_id {A : Type} (l : list (option A)) :
  NoDup l -> NoDup (omap (fun t => t) l).
Proof.
  induction 1 as [|o l Hout Hnd IH]; simpl; [constructor|].
  destruct o as [a|]; [|done].
  constructor; [|done]. intros Hin. apply Hout.
  apply list_elem_of_omap in Hin as (o & Ho & ->). done.
Qed.

Lemma elem_of_omap_id {A : Type} (l : list (option A)) (a : A) :
  a ∈ omap (fun t => t) l <-> Some a ∈ l.
Proof.
  rewrite list_elem_of_omap. split.
  - by intros (o & Ho & ->).
  - intros H. by exists (Some a).
Qed.

Lemma Map_get_deliver (data : DataMessage) (wire : Wire) (recipients : list string)
    (remotes : list (string * Node)) (id : string) :
  Map_get (deliver_replication data wire recipients remotes) id
  = (fun n => if bool_decide (id ∈ recipients) && delivered wire id
              then handleReplication n data (recv_clock wire id) else n)
      <$> Map_get remotes id.
Proof.
  unfold deliver_replication.
  induction remotes as [|[k n] remotes IH]; simpl; [done|].
  destruct (bool_decide (k ∈ recipients) && delivered wire k) eqn:E; simpl;
    destruct (decide (k = id)) as [->|Hne]; simpl; try done.
  - by rewrite E.
  - by rewrite E.
Qed.

(** The timestamp a node holds for the key after a replication is its own
    clock reading, or the one it held already when that was not older. *)
Lemma handleReplication_timestamp (n : Node) (d : DataMessage) (now : Z) :
  timestamp (msg_metadata d) <= now ->
  exists m, Map_get (metadata (handleReplication n d now)) (msg_key d) = Some m
            /\ timestamp (msg_metadata d) <= timestamp m.
Proof.
  intros Hnow. pose proof (handleReplication_cases n d now) as Hc. simpl in Hc.
  destruct (Map_get (metadata n) (msg_key d)) as [e|] eqn:He.
  - destruct Hc as [Hlt Hge].
    destruct (decide (timestamp e < timestamp (msg_metadata d))) as [H|H].
    + rewrite Hlt by done. eexists. split; [apply storeData_get | simpl; lia].
    + rewrite Hge by lia. exists e. split; [done | lia].
  - rewrite Hc. eexists. split; [apply storeData_get | simpl; lia].
Qed.

(** X13: what a PUT leaves behind: every node counted in [successfulWrites] holds a
    record for the key stamped by its own clock (or a record it held already
    that was not older), so at least [successfulWrites] replicas hold the key
    with a timestamp at or after the PUT's when no clock is behind the
    coordinator's and acknowledgements come from peers the message reached. *)
Theorem put_success_holders (fuel : nat) (w w' : World) (key : string) (value : Value)
    (now_put now_store : Z) (wire : Wire) (r : PutResult) :
  world_put fuel w key value now_put now_store wire = Some (w', r) ->
  now_put <= now_store ->
  (forall id, acked wire id = true ->
     delivered wire id = true /\ now_put <= recv_clock wire id
     /\ is_Some (Map_get (remotes w) id)) ->
  success r = (quorumSize (coordinator w) <=? successfulWrites r)%nat
  /\ (successfulWrites r
      <= length (holders w' key (fun t => (now_put <=? t)%Z) (replicaNodes r)))%nat
  /\ (includes (replicaNodes r) (nodeId (localNode (coordinator w))) = true ->
      Map_get (metadata (localNode (coordinator w'))) key
      = Some {| version := 1; timestamp := now_store;
                meta_nodeId := nodeId (localNode (coordinator w)) |}).
Proof.
  intros Hput Hclock Hwire. unfold world_put in Hput.
  destruct (put fuel (coordinator w) key value now_put now_store (acked wire))
    as [[c' r0]|] eqn:Hp; [|done].
  injection Hput as <- ->.
  apply put_inv in Hp as (Hrep & -> & Hres & HS & Hsucc).
  set (c := coordinator w) in *. set (self := nodeId (localNode c)) in *.
  set (node' := if includes (replicaNodes r) self
                then storeData (localNode c) key value 1 now_store else localNode c) in *.
  assert (nodeId node' = self) as Hself.
  { unfold node'. by destruct (includes (replicaNodes r) self). }
  assert (peers node' = peers (localNode c)) as Hpeers.
  { unfold node'. by destruct (includes (replicaNodes r) self). }
  split; [done|]. split.
  2:{ intros Hin. simpl. unfold node'. rewrite Hin. apply storeData_get. }
  pose proof (getReplicaNodes_NoDup _ _ _ _ Hrep) as Hnd.
  rewrite HS, <- (length_fmap wr_nodeId). apply submseteq_length.
  rewrite Hres, filter_app, fmap_app, replicateToPeers_successes, Hself.
  assert (wr_nodeId <$> filter (fun x => wr_success x = true)
            (if includes (replicaNodes r) self
             then [{| wr_nodeId := self; wr_success := true; wr_error := None |}]
             else [])
          = if includes (replicaNodes r) self then [self] else []) as ->.
  { by destruct (includes (replicaNodes r) self). }
  apply NoDup_submseteq.
  - apply NoDup_app. split; [|split].
    + destruct (includes (replicaNodes r) self); [apply NoDup_singleton | constructor].
    + intros id Hid Hin. apply list_elem_of_filter in Hin as [[[Hne _] _] _].
      destruct (includes (replicaNodes r) self).
      * apply list_elem_of_singleton in Hid. done.
      * by apply elem_of_nil in Hid.
    + apply NoDup_filter, NoDup_omap_id, Hnd.
  - intros id Hid. unfold holders. apply list_elem_of_filter.
    apply elem_of_app in Hid as [Hid|Hid].
    + destruct (includes (replicaNodes r) self) eqn:Hin.
      2:{ by apply elem_of_nil in Hid. }
      apply list_elem_of_singleton in Hid as ->.
      split.
      * unfold holds, node_of. simpl. rewrite ?Hself, decide_True by done.
        unfold node'. rewrite ?Hin.
        destruct (storeData_get (localNode c) key value 1 now_store) as [_ ->].
        simpl. by apply Z.leb_le.
      * apply elem_of_omap_id. unfold includes in Hin. by apply bool_decide_eq_true_1 in Hin.
    + apply list_elem_of_filter in Hid as [[[Hne Hlinked] Hack] Hin].
      split; [|done].
      destruct (Hwire id Hack) as (Hdel & Hrecv & [n Hn]).
      unfold holds, node_of. simpl. rewrite ?Hself, decide_False by done.
      rewrite Map_get_deliver, Hn. simpl.
      assert (bool_decide
                (id ∈ wr_nodeId <$> replicateToPeers node' (acked wire) (replicaNodes r))
              = true) as ->.
      { apply bool_decide_eq_true_2. rewrite replicateToPeers_nodeIds.
        apply list_elem_of_filter. rewrite Hself. done. }
      rewrite Hdel. simpl.
      destruct (handleReplication_timestamp n (put_message c key value now_put)
                  (recv_clock wire id)) as (m & Hm & Hle); [done|].
      simpl in Hm. rewrite Hm. simpl in Hle. by apply Z.leb_le.
Qed.

Lemma put_success_holders_witness :
  success world_123_result = true
  /\ (3 <= length (holders world_123_after "user:1" (fun t => (1000 <=? t)%Z)
                           (replicaNodes world_123_result)))%nat.
Proof.
  destruct (put_success_holders 451 world_123 world_123_after "user:1" (Json "John")
              1000 1001 wire_peers world_123_result) as (_ & H & _).
  - vm_compute. reflexivity.
  - lia.
  - intros id Hack. simpl in Hack. apply orb_true_iff in Hack.
    destruct Hack as [Hid|Hid]; apply String.eqb_eq in Hid as ->.
    + split; [reflexivity|]. split; [simpl; lia | by eexists].
    + split; [reflexivity|]. split; [simpl; lia | by eexists].
  - split; [reflexivity | exact H].
Defined.

(** C2, the failing case: a single node with replication factor 1 reads 1000
    for the metadata of the PUT and 1001 when it stores; the PUT succeeds with
    one write, and no replica holds the key under timestamp 1000. *)
Lemma put_stores_another_timestamp :
  (fun x =>
     (success (snd x), successfulWrites (snd x), put_quorumSize (snd x),
      replicaNodes (snd x),
      timestamp <$> Map_get (metadata (localNode (coordinator (fst x)))) "user:1",
      length (holders (fst x) "user:1" (fun t => t =? 1000) (replicaNodes (snd x)))))
    <$> world_put 151 world_single "user:1" (Json "John") 1000 1001 (wire_all 1001)
  = Some (true, 1%nat, 1%nat, [Some "node-1"], Some 1001, 0%nat).
Proof. vm_compute. reflexivity. Qed.

(** * Further properties of the code *)

(** ** Ring positions *)

Lemma hex_value_range (c : ascii) (d : Z) : hex_value c = Some d -> 0 <= d < 16.
Proof.
  unfold hex_value.
  repeat match goal with |- context [if ?b then _ else _] => destruct b eqn:? end;
    intros [= <-]; lia.
Qed.

Lemma parseInt16_bounds (s : string) (acc : Z) :
  0 <= acc -> 0 <= parseInt16 acc s < (acc + 1) * 16 ^ Z.of_nat (String.length s).
Proof.
  revert acc. induction s as [|c s IH]; intros acc Hacc; simpl String.length.
  - simpl. lia.
  - rewrite Nat2Z.inj_succ, Z.pow_succ_r by lia.
    assert (0 < 16 ^ Z.of_nat (String.length s)) by (apply Z.pow_pos_nonneg; lia).
    simpl. destruct (hex_value c) as [d|] eqn:Hd.
    + apply hex_value_range in Hd. specialize (IH (16 * acc + d) ltac:(lia)). nia.
    + nia.
Qed.

Lemma length_substring_le (n m : nat) (s : string) :
  (String.length (String.substring n m s) <= m)%nat.
Proof.
  revert n m. induction s as [|c s IH]; intros [|n] [|m]; simpl; try lia.
  - specialize (IH 0%nat m). lia.
  - apply IH.
  - apply IH.
Qed.

(** A ring position is a 32-bit unsigned integer, whatever string is
    parsed. *)
Lemma hashToPosition_range (h : string) : 0 <= hashToPosition h < 2 ^ 32.
Proof.
  unfold hashToPosition.
  pose proof (parseInt16_bounds (String.substring 0 8 h) 0 ltac:(lia)) as Hb.
  pose proof (length_substring_le 0 8 h) as Hl.
  assert (16 ^ Z.of_nat (String.length (String.substring 0 8 h)) <= 16 ^ 8).
  { apply Z.pow_le_mono_r; lia. }
  change (2 ^ 32) with (16 ^ 8). lia.
Qed.

Lemma add32_range (x y : Z) : 0 <= SHA256.add32 x y < 2 ^ 32.
Proof.
  unfold SHA256.add32. change SHA256.mask32 with (Z.ones 32).
  rewrite Z.land_ones by lia. apply Z.mod_pos_bound. lia.
Qed.

Lemma round_length (st : list Z) (kw : Z * Z) :
  length st = 8%nat -> length (SHA256.round st kw) = 8%nat.
Proof.
  intros H. do 9 (destruct st as [|? st]; try discriminate). reflexivity.
Qed.

Lemma rounds_length (kws : list (Z * Z)) (st : list Z) :
  length st = 8%nat -> length (fold_left SHA256.round kws st) = 8%nat.
Proof.
  revert st. induction kws as [|kw kws IH]; intros st H; simpl; [done|].
  apply IH, round_length, H.
Qed.

Lemma compress_word_list (h block : list Z) :
  length h = 8%nat -> word_list (SHA256.compress h block).
Proof.
  intros H. unfold SHA256.compress, word_list. split.
  - rewrite List.length_map, List.length_combine, rounds_length by done. lia.
  - apply Forall_forall. intros w Hw. apply list_elem_of_In, in_map_iff in Hw.
    destruct Hw as ([a b] & <- & _). apply add32_range.
Qed.

Lemma digest_word_list (s : string) : word_list (SHA256.digest s).
Proof.
  unfold SHA256.digest.
  set (bs := SHA256.blocks _ _). clearbody bs.
  assert (word_list SHA256.H0) as H0.
  { split; [reflexivity|]. unfold SHA256.H0. repeat constructor; lia. }
  revert H0. generalize SHA256.H0. induction bs as [|b bs IH]; intros h Hh; simpl; [done|].
  apply IH, compress_word_list, Hh.
Qed.

Lemma hex_value_digit (d : Z) : 0 <= d < 16 -> hex_value (SHA256.hex_digit d) = Some d.
Proof.
  intros H.
  assert (d = 0 \/ d = 1 \/ d = 2 \/ d = 3 \/ d = 4 \/ d = 5 \/ d = 6 \/ d = 7 \/ d = 8
          \/ d = 9 \/ d = 10 \/ d = 11 \/ d = 12 \/ d = 13 \/ d = 14 \/ d = 15) as Hd by lia.
  repeat destruct Hd as [->|Hd]; try reflexivity. subst d. reflexivity.
Qed.

Lemma nibble (x n : Z) : 0 <= n -> Z.land (Z.shiftr x n) 15 = (x / 2 ^ n) mod 16.
Proof.
  intros Hn. change 15 with (Z.ones 4). rewrite Z.land_ones, Z.shiftr_div_pow2 by lia.
  reflexivity.
Qed.

Lemma parse_hex_word (x : Z) :
  0 <= x < 2 ^ 32 ->
  parseInt16 0 (string_of_list_ascii (SHA256.hex_word x)) = x.
Proof.
  intros Hx.
  change (SHA256.hex_word x)
    with [SHA256.hex_digit (Z.land (Z.shiftr x 28) 15);
          SHA256.hex_digit (Z.land (Z.shiftr x 24) 15);
          SHA256.hex_digit (Z.land (Z.shiftr x 20) 15);
          SHA256.hex_digit (Z.land (Z.shiftr x 16) 15);
          SHA256.hex_digit (Z.land (Z.shiftr x 12) 15);
          SHA256.hex_digit (Z.land (Z.shiftr x 8) 15);
          SHA256.hex_digit (Z.land (Z.shiftr x 4) 15);
          SHA256.hex_digit (Z.land (Z.shiftr x 0) 15)].
  rewrite !nibble by lia.
  cbn [string_of_list_ascii parseInt16].
  rewrite !hex_value_digit by (apply Z.mod_pos_bound; lia).
  change (2 ^ 28) with (16 * 16 * 16 * 16 * 16 * 16 * 16).
  change (2 ^ 24) with (16 * 16 * 16 * 16 * 16 * 16).
  change (2 ^ 20) with (16 * 16 * 16 * 16 * 16). change (2 ^ 16) with (16 * 16 * 16 * 16).
  change (2 ^ 12) with (16 * 16 * 16). change (2 ^ 8) with (16 * 16).
  change (2 ^ 4) with 16. change (2 ^ 0) with 1.
  change (2 ^ 32) with 4294967296 in Hx.
  rewrite <- !Z.div_div by lia. rewrite Z.div_1_r.
  Z.div_mod_to_equations. lia.
Qed.

(** X1: the position of a key is the first 32-bit word of its SHA-256 digest:
    the digest has eight 32-bit words, [hash] prints them as 64 hexadecimal
    digits, and parsing the first eight digits gives the first word back. *)
Theorem hash_position_is_first_word (key : string) :
  exists (w : Z) (rest : list Z),
    SHA256.digest key = w :: rest
    /\ length rest = 7%nat
    /\ 0 <= w < 2 ^ 32
    /\ String.length (hash key) = 64%nat
    /\ hashToPosition (hash key) = w.
Proof.
  destruct (digest_word_list key) as [Hlen Hrange].
  destruct (SHA256.digest key) as [|w rest] eqn:Hd; [discriminate|].
  exists w, rest. split; [done|]. split; [simpl in Hlen; lia|].
  apply Forall_cons in Hrange as [Hw _]. split; [done|].
  do 8 (destruct rest as [|? rest]; try discriminate).
  unfold hash, SHA256.hexdigest. rewrite Hd. split; [reflexivity|].
  rewrite <- (parse_hex_word w Hw) at 2. reflexivity.
Qed.

(** ** More on maps *)

Section JSMapMore.
Context {K V : Type} `{EqDecision K}.
Implicit Types (m : list (K * V)) (k : K) (v : V).

Lemma Map_set_same m k v : Map_get m k = Some v -> Map_set m k v = m.
Proof.
  induction m as [|[k' v'] m IH]; simpl; [done|].
  destruct (decide (k' = k)) as [->|Hne].
  - by intros [= ->].
  - intros H. by rewrite IH.
Qed.

Lemma Map_set_set m k v v' : Map_set (Map_set m k v) k v' = Map_set m k v'.
Proof.
  induction m as [|[k' w] m IH]; simpl.
  - by rewrite decide_True.
  - destruct (decide (k' = k)) as [->|Hne]; simpl.
    + by rewrite decide_True.
    + rewrite decide_False by done. by rewrite IH.
Qed.

Lemma elem_of_Map_set m k v (e : K * V) : e ∈ Map_set m k v -> e ∈ m \/ e = (k, v).
Proof.
  induction m as [|[k' v'] m IH]; simpl.
  - rewrite list_elem_of_singleton. by right.
  - destruct (decide (k' = k)) as [->|Hne]; rewrite !elem_of_cons.
    + intros [->|?]; [by right | left; by right].
    + intros [->|H]; [left; by left|]. apply IH in H as [?|?]; [left; by right | by right].
Qed.

Lemma elem_of_Map_delete m k (e : K * V) : e ∈ Map_delete m k <-> e ∈ m /\ fst e <> k.
Proof.
  induction m as [|[k' v'] m IH]; simpl.
  - rewrite elem_of_nil. tauto.
  - destruct (decide (k' = k)) as [->|Hne]; rewrite ?elem_of_cons, IH.
    + split; [intros [? ?]; split; [by right | done]|].
      intros [[->|?] Hk]; [done | done].
    + split.
      * intros [->|[? ?]]; [split; [by left | done] | split; [by right | done]].
      * intros [[->|?] Hk]; [by left | by right].
Qed.

Lemma NoDup_keys_set m k v : NoDup (Map_keys m) -> NoDup (Map_keys (Map_set m k v)).
Proof.
  unfold Map_keys. induction m as [|[k' v'] m IH]; simpl.
  - intros _. apply NoDup_singleton.
  - rewrite NoDup_cons. intros [Hout Hnd].
    destruct (decide (k' = k)) as [->|Hne]; simpl; rewrite NoDup_cons.
    + done.
    + split; [|by apply IH]. intros Hin.
      apply (Map_keys_set m k v k') in Hin as [?|?]; done.
Qed.

Lemma NoDup_keys_delete m k : NoDup (Map_keys m) -> NoDup (Map_keys (Map_delete m k)).
Proof.
  unfold Map_keys. induction m as [|[k' v'] m IH]; simpl; [done|].
  rewrite NoDup_cons. intros [Hout Hnd].
  destruct (decide (k' = k)) as [->|Hne]; simpl; [by apply IH|].
  rewrite NoDup_cons. split; [|by apply IH].
  intros Hin. by apply (Map_keys_delete m k k') in Hin.
Qed.

Lemma Map_get_elem_NoDup m k v : NoDup (Map_keys m) -> (k, v) ∈ m -> Map_get m k = Some v.
Proof.
  unfold Map_keys. induction m as [|[k' v'] m IH]; simpl.
  - intros _ H. by apply elem_of_nil in H.
  - rewrite NoDup_cons, elem_of_cons. intros [Hout Hnd] [[= -> ->]|Hin].
    + by rewrite decide_True.
    + rewrite decide_False; [by apply IH|].
      intros ->. apply Hout. apply list_elem_of_fmap. by exists (k, v).
Qed.

Lemma Map_has_false m k : Map_has m k = false <-> k ∉ Map_keys m.
Proof.
  rewrite <- Map_has_true. destruct (Map_has m k); split; try done.
Qed.

Lemma Map_keys_delete_iff m k k' :
  k' ∈ Map_keys (Map_delete m k) <-> k' ∈ Map_keys m /\ k' <> k.
Proof.
  unfold Map_keys. rewrite !list_elem_of_fmap. split.
  - intros ([a b] & -> & He). apply elem_of_Map_delete in He as [He Hne].
    split; [by exists (a, b) | done].
  - intros [([a b] & -> & He) Hne]. exists (a, b). split; [done|].
    by apply elem_of_Map_delete.
Qed.
End JSMapMore.

(** ** The ring: repeated and undone operations *)

Lemma set_all_fixed (f : nat -> Z) (x : string) (idxs : list nat) (m : list (Z * string)) :
  Forall (fun i => Map_get m (f i) = Some x) idxs -> set_all f x idxs m = m.
Proof.
  induction 1 as [|i idxs Hi _ IH]; simpl; [done|].
  rewrite Map_set_same by done. exact IH.
Qed.

Lemma addNode_ring (c : ConsistentHashing) (x : string) (info : NodeInfo) :
  ring (addNode x info c)
  = set_all (virtualPosition x) x (seq 0 (virtualNodes c)) (ring c).
Proof. reflexivity. Qed.

(** X2: [addNode] is idempotent on an id: adding a node again, with the same
    or another descriptor, gives the state that adding it once with the last
    descriptor gives; the ring gains no entry. *)
Theorem addNode_twice (c : ConsistentHashing) (x : string) (info info' : NodeInfo) :
  addNode x info' (addNode x info c) = addNode x info' c.
Proof.
  assert (ring (addNode x info' (addNode x info c)) = ring (addNode x info' c)) as Hring.
  { rewrite !addNode_ring. cbn [virtualNodes addNode].
    apply set_all_fixed, Forall_forall. intros i Hi.
    apply set_all_owner. right. by apply list_elem_of_fmap_2. }
  unfold addNode in *. cbn [ring replicationFactor virtualNodes nodes sortedHashes] in *.
  rewrite Hring, Map_set_set. reflexivity.
Qed.

(** X3: [removeNode] of an id that is not in the node table returns [false]
    and changes nothing; in particular a second [removeNode] of the same id
    does, whatever the first did. *)
Theorem removeNode_twice (c : ConsistentHashing) (x : string) :
  (Map_has (nodes c) x = false -> removeNode x c = (false, c))
  /\ removeNode x (snd (removeNode x c)) = (false, snd (removeNode x c)).
Proof.
  assert (forall c', Map_has (nodes c') x = false -> removeNode x c' = (false, c')) as Habs.
  { intros c' H. unfold removeNode. by rewrite H. }
  split; [apply Habs|]. apply Habs.
  unfold removeNode. destruct (Map_has (nodes c) x) eqn:E; simpl; [|done].
  apply Map_has_false. intros Hin. apply Map_keys_delete_iff in Hin as [_ ?]. done.
Qed.

(** ** Reachable ring states *)

Lemma elem_of_set_all (f : nat -> Z) (x : string) (idxs : list nat)
    (m : list (Z * string)) (e : Z * string) :
  e ∈ set_all f x idxs m -> e ∈ m \/ (snd e = x /\ fst e ∈ f <$> idxs).
Proof.
  revert m. induction idxs as [|i idxs IH]; intros m; simpl; [by left|].
  intros H. apply IH in H as [H|[? ?]].
  - apply elem_of_Map_set in H as [? | ->]; [by left|]. right. split; [done|]. left.
  - right. split; [done|]. by right.
Qed.

Lemma elem_of_delete_all (f : nat -> Z) (idxs : list nat) (m : list (Z * string))
    (e : Z * string) :
  e ∈ delete_all f idxs m -> e ∈ m /\ fst e ∉ f <$> idxs.
Proof.
  revert m. induction idxs as [|i idxs IH]; intros m; simpl.
  - intros H. split; [done | apply not_elem_of_nil].
  - intros H. apply IH in H as [H Hout]. apply elem_of_Map_delete in H as [H Hne].
    split; [done|]. apply not_elem_of_cons. done.
Qed.

Lemma NoDup_keys_set_all (f : nat -> Z) (x : string) (idxs : list nat)
    (m : list (Z * string)) :
  NoDup (Map_keys m) -> NoDup (Map_keys (set_all f x idxs m)).
Proof.
  revert m. induction idxs as [|i idxs IH]; intros m H; simpl; [done|].
  by apply IH, NoDup_keys_set.
Qed.

Lemma NoDup_keys_delete_all (f : nat -> Z) (idxs : list nat) (m : list (Z * string)) :
  NoDup (Map_keys m) -> NoDup (Map_keys (delete_all f idxs m)).
Proof.
  revert m. induction idxs as [|i idxs IH]; intros m H; simpl; [done|].
  by apply IH, NoDup_keys_delete.
Qed.

Lemma removeNode_present (c : ConsistentHashing) (x : string) :
  Map_has (nodes c) x = true ->
  snd (removeNode x c)
  = {| replicationFactor := replicationFactor c; virtualNodes := virtualNodes c;
       ring := delete_all (virtualPosition x) (seq 0 (virtualNodes c)) (ring c);
       sortedHashes :=
         sort_numeric
           (Map_keys (delete_all (virtualPosition x) (seq 0 (virtualNodes c)) (ring c)));
       nodes := Map_delete (nodes c) x |}.
Proof. intros H. unfold removeNode. rewrite H. reflexivity. Qed.

Lemma removeNode_absent (c : ConsistentHashing) (x : string) :
  Map_has (nodes c) x = false -> snd (removeNode x c) = c.
Proof. intros H. unfold removeNode. by rewrite H. Qed.

Lemma reachable_inv (c : ConsistentHashing) : reachable c -> ring_inv c.
Proof.
  induction 1 as [R V | c x info _ [Hs [Hr [Hn Ho]]] | c x _ [Hs [Hr [Hn Ho]]]].
  - repeat split; simpl; constructor.
  - split; [reflexivity|]. rewrite addNode_ring. cbn [addNode nodes virtualNodes].
    split; [by apply NoDup_keys_set_all|]. split; [by apply NoDup_keys_set|].
    rewrite Forall_forall in Ho. apply Forall_forall. intros e He.
    apply elem_of_set_all in He as [He|[Hx Hp]].
    + destruct (Ho e He) as [H1 H2]. split; [|done]. apply Map_keys_set. by right.
    + split; [apply Map_keys_set; by left | by rewrite Hx].
  - destruct (Map_has (nodes c) x) eqn:E.
    2:{ rewrite removeNode_absent by done. done. }
    rewrite removeNode_present by done. unfold ring_inv. cbn [ring sortedHashes nodes virtualNodes].
    split; [reflexivity|]. split; [by apply NoDup_keys_delete_all|].
    split; [by apply NoDup_keys_delete|].
    rewrite Forall_forall in Ho. apply Forall_forall. intros e He.
    apply elem_of_delete_all in He as [He Hout]. destruct (Ho e He) as [H1 H2].
    split; [|done]. apply Map_keys_delete_iff. split; [done|].
    intros Hx. rewrite Hx in H2. done.
Qed.

Lemma reachable_ring_123 : reachable ring_123.
Proof.
  rewrite ring_123_eq, ring_12_eq, ring_1_eq.
  apply reachable_addNode, reachable_addNode, reachable_addNode, reachable_new.
Qed.

Lemma sorted_NoDup_lt (l : list Z) :
  StronglySorted Z.le l -> NoDup l -> StronglySorted Z.lt l.
Proof.
  induction 1 as [|x l Hl IH Hx]; [constructor|].
  rewrite NoDup_cons. intros [Hout Hnd]. constructor; [by apply IH|].
  rewrite Forall_forall in Hx. apply Forall_forall. intros y Hy.
  specialize (Hx y Hy). assert (x <> y) by (intros ->; done). lia.
Qed.

(** X4: in every reachable ring state the position list is strictly
    ascending and holds exactly the positions of the ring map, each once. *)
Theorem sortedHashes_strictly_sorted (c : ConsistentHashing) :
  reachable c ->
  StronglySorted Z.lt (sortedHashes c)
  /\ (forall p, p ∈ sortedHashes c <-> is_Some (Map_get (ring c) p))
  /\ length (sortedHashes c) = Map_size (ring c).
Proof.
  intros Hc. apply reachable_inv in Hc as (Hs & Hr & _).
  rewrite Hs. split; [|split].
  - apply sorted_NoDup_lt; [apply sort_numeric_sorted|].
    by rewrite sort_numeric_Permutation.
  - intros p. rewrite elem_of_sort_numeric. split; [apply Map_get_is_Some|].
    intros [id Hid]. apply Map_get_Some_elem in Hid.
    unfold Map_keys. apply list_elem_of_fmap. by exists (p, id).
  - rewrite sort_numeric_Permutation. unfold Map_keys, Map_size. by rewrite length_fmap.
Qed.

Lemma sortedHashes_strictly_sorted_witness :
  StronglySorted Z.lt (sortedHashes ring_123)
  /\ (forall p, p ∈ sortedHashes ring_123 <-> is_Some (Map_get (ring ring_123) p))
  /\ length (sortedHashes ring_123) = Map_size (ring ring_123).
Proof. apply sortedHashes_strictly_sorted, reachable_ring_123. Defined.

(** X5: in every reachable ring state each ring entry maps a 32-bit position
    to a node of the node table, and the position is one of the virtual
    positions of that node. *)
Theorem ring_owner_registered (c : ConsistentHashing) (p : Z) (id : string) :
  reachable c ->
  Map_get (ring c) p = Some id ->
  is_Some (getNodeInfo c id)
  /\ (exists i, (i < virtualNodes c)%nat /\ p = virtualPosition id i)
  /\ 0 <= p < 2 ^ 32.
Proof.
  intros Hc Hp. apply reachable_inv in Hc as (_ & _ & _ & Ho).
  rewrite Forall_forall in Ho. apply Map_get_Some_elem in Hp.
  destruct (Ho _ Hp) as [H1 H2]. simpl in H1, H2.
  apply list_elem_of_fmap in H2 as (i & -> & Hi). apply elem_of_seq in Hi.
  split; [by apply Map_get_is_Some|]. split; [exists i; split; [lia | done]|].
  apply hashToPosition_range.
Qed.

Lemma ring_owner_registered_witness :
  is_Some (getNodeInfo ring_123 "node-1")
  /\ (exists i, (i < virtualNodes ring_123)%nat /\ 2343058463 = virtualPosition "node-1" i)
  /\ 0 <= 2343058463 < 2 ^ 32.
Proof.
  apply (ring_owner_registered ring_123 2343058463 "node-1").
  - apply reachable_ring_123.
  - vm_compute. reflexivity.
Defined.

Lemma length_flat_map_const {A B : Type} (f : A -> list B) (n : nat) (l : list A) :
  (forall a, length (f a) = n) -> length (flat_map f l) = (length l * n)%nat.
Proof.
  intros Hf. induction l as [|a l IH]; simpl; [done|].
  rewrite length_app, Hf, IH. lia.
Qed.

(** X6: the ring never holds more entries than virtual nodes times nodes:
    in every reachable state [getStats] reports
    [ringSize <= virtualNodes * totalNodes]. *)
Theorem ringSize_bound (c : ConsistentHashing) :
  reachable c ->
  (ringSize (getStats c) <= stats_virtualNodes (getStats c) * totalNodes (getStats c))%nat.
Proof.
  intros Hc. apply reachable_inv in Hc as (_ & Hr & _ & Ho).
  unfold getStats, Map_size; simpl.
  rewrite <- (length_fmap fst (ring c)). fold (Map_keys (ring c)).
  rewrite <- (length_fmap fst (nodes c)). fold (Map_keys (nodes c)).
  replace (virtualNodes c * length (Map_keys (nodes c)))%nat
    with (length (flat_map (positionsOf (virtualNodes c)) (Map_keys (nodes c)))).
  2:{ rewrite (length_flat_map_const _ (virtualNodes c)); [lia|].
      intros a. unfold positionsOf. by rewrite length_fmap, length_seq. }
  apply submseteq_length, NoDup_submseteq; [done|].
  intros p Hp. unfold Map_keys in Hp at 1. apply list_elem_of_fmap in Hp as ([q id] & -> & He).
  rewrite Forall_forall in Ho. destruct (Ho _ He) as [H1 H2]. simpl in *.
  apply list_elem_of_In, in_flat_map. exists id. by rewrite <- !list_elem_of_In.
Qed.

Lemma ringSize_bound_witness :
  (ringSize (getStats ring_123)
   <= stats_virtualNodes (getStats ring_123) * totalNodes (getStats ring_123))%nat.
Proof. apply ringSize_bound, reachable_ring_123. Defined.

(** X7: in a reachable ring state [removeNode(x)] leaves no trace of [x]: it
    is out of the node table and owns no position; any other node keeps its
    descriptor, and a position that is not a virtual position of [x] keeps
    its owner. *)
Theorem removeNode_clears (c : ConsistentHashing) (x : string) :
  reachable c ->
  getNodeInfo (snd (removeNode x c)) x = None
  /\ (forall p, Map_get (ring (snd (removeNode x c))) p <> Some x)
  /\ (forall y, y <> x -> getNodeInfo (snd (removeNode x c)) y = getNodeInfo c y)
  /\ (Map_has (nodes c) x = true ->
      forall p, p ∉ positionsOf (virtualNodes c) x ->
                Map_get (ring (snd (removeNode x c))) p = Map_get (ring c) p).
Proof.
  intros Hc.
  pose proof (reachable_inv _ (reachable_removeNode c x Hc)) as (_ & _ & _ & Ho').
  pose proof (reachable_inv _ Hc) as (_ & _ & _ & Ho).
  assert (x ∉ Map_keys (nodes (snd (removeNode x c)))) as Hout.
  { destruct (Map_has (nodes c) x) eqn:E.
    - rewrite removeNode_present by done. simpl.
      intros Hin. apply Map_keys_delete_iff in Hin as [_ ?]. done.
    - rewrite removeNode_absent by done. by apply Map_has_false. }
  split; [by apply Map_get_None|]. split; [|split].
  - intros p Hp. apply Map_get_Some_elem in Hp.
    rewrite Forall_forall in Ho'. destruct (Ho' _ Hp) as [H1 _]. done.
  - intros y Hy. unfold getNodeInfo. destruct (Map_has (nodes c) x) eqn:E.
    + rewrite removeNode_present by done. simpl. by apply Map_get_delete_ne.
    + by rewrite removeNode_absent.
  - intros E p Hp. rewrite removeNode_present by done. simpl.
    unfold positionsOf in Hp. revert Hp. generalize (seq 0 (virtualNodes c)).
    generalize (ring c). intros m idxs. revert m.
    induction idxs as [|i idxs IH]; intros m Hp; simpl; [done|].
    rewrite fmap_cons in Hp. apply not_elem_of_cons in Hp as [Hne Hp].
    rewrite IH by done. by apply Map_get_delete_ne.
Qed.

Lemma removeNode_clears_witness :
  getNodeInfo (snd (removeNode "node-2" ring_123)) "node-2" = None
  /\ (forall p, Map_get (ring (snd (removeNode "node-2" ring_123))) p <> Some "node-2")
  /\ (forall y, y <> "node-2" ->
        getNodeInfo (snd (removeNode "node-2" ring_123)) y = getNodeInfo ring_123 y)
  /\ (Map_has (nodes ring_123) "node-2" = true ->
      forall p, p ∉ positionsOf (virtualNodes ring_123) "node-2" ->
                Map_get (ring (snd (removeNode "node-2" ring_123))) p
                = Map_get (ring ring_123) p).
Proof. apply removeNode_clears, reachable_ring_123. Defined.

(** X8: in a reachable ring state [getNode] answers [null] exactly when the
    ring has no position, and otherwise names a node of the node table: the
    owner of the position the key is served from. *)
Theorem getNode_registered (c : ConsistentHashing) (key : string) :
  reachable c ->
  (ring c = [] /\ getNode c key = None)
  \/ (exists id q, getNode c key = Some id
                   /\ is_Some (getNodeInfo c id)
                   /\ primary_position c key q
                   /\ Map_get (ring c) q = Some id).
Proof.
  intros Hc. pose proof (reachable_inv _ Hc) as (Hs & _ & _ & Ho).
  destruct (ring c) as [|e r] eqn:Hr.
  - left. split; [done|]. unfold getNode. rewrite Hs, Hr. reflexivity.
  - right. rewrite <- Hr in *.
    assert (sortedHashes c <> []) as Hne.
    { intros E. assert (fst e ∈ sortedHashes c) as Hin.
      { rewrite Hs, elem_of_sort_numeric, Hr. left. }
      rewrite E in Hin. by apply elem_of_nil in Hin. }
    destruct (primary_position_startIndex c key Hs Hne) as (q & Hq & Hprim).
    assert (getNode c key = Map_get (ring c) q) as Hg.
    { rewrite getNode_ownerAt by done. unfold ownerAt. by rewrite Hq. }
    destruct Hprim as [Hin Hmin].
    destruct (Map_get_is_Some _ _ Hin) as [id Hid].
    exists id, q. rewrite Hg. split; [done|]. split; [|split; [by split | done]].
    apply Map_get_Some_elem in Hid. rewrite Forall_forall in Ho.
    destruct (Ho _ Hid) as [H1 _]. by apply Map_get_is_Some.
Qed.

Lemma getNode_registered_witness :
  (ring ring_123 = [] /\ getNode ring_123 "user:1" = None)
  \/ (exists id q, getNode ring_123 "user:1" = Some id
                   /\ is_Some (getNodeInfo ring_123 id)
                   /\ primary_position ring_123 "user:1" q
                   /\ Map_get (ring ring_123) q = Some id).
Proof. apply getNode_registered, reachable_ring_123. Defined.

Lemma getNode_primary (c : ConsistentHashing) (key : string) :
  sortedHashes c = sort_numeric (Map_keys (ring c)) ->
  sortedHashes c <> [] ->
  exists q, primary_position c key q /\ getNode c key = Map_get (ring c) q.
Proof.
  intros Hs Hne.
  destruct (primary_position_startIndex c key Hs Hne) as (q & Hq & Hprim).
  exists q. split; [done|]. rewrite getNode_ownerAt by done. unfold ownerAt. by rewrite Hq.
Qed.

Lemma getNode_empty (c : ConsistentHashing) (key : string) :
  sortedHashes c = [] -> getNode c key = None.
Proof. intros H. unfold getNode. by rewrite H. Qed.

Lemma sort_numeric_nil (l : list Z) : sort_numeric l = [] <-> l = [].
Proof.
  split; [|by intros ->]. intros H.
  apply Permutation_nil_r. rewrite <- H. by rewrite sort_numeric_Permutation.
Qed.

Lemma keys_set_all (f : nat -> Z) (x : string) (idxs : list nat) (m : list (Z * string))
    (k : Z) :
  k ∈ Map_keys (set_all f x idxs m) <-> k ∈ Map_keys m \/ k ∈ f <$> idxs.
Proof.
  split; [apply set_all_keys|]. intros [Hk|Hk].
  - revert m Hk. induction idxs as [|i idxs IH]; intros m Hk; simpl; [done|].
    apply IH, Map_keys_set. by right.
  - assert (Map_get (set_all f x idxs m) k = Some x) as Hg by (apply set_all_owner; by right).
    apply Map_get_Some_elem in Hg. unfold Map_keys. apply list_elem_of_fmap. by exists (k, x).
Qed.

(** X9: adding a node moves keys only to that node: in a reachable ring
    state, the primary of any key after [addNode(x)] is its primary before,
    or [x]. *)
Theorem addNode_moves_keys_to_new_node (c : ConsistentHashing) (x : string)
    (info : NodeInfo) (key : string) :
  reachable c ->
  getNode (addNode x info c) key = getNode c key
  \/ getNode (addNode x info c) key = Some x.
Proof.
  intros Hc. pose proof (reachable_inv _ Hc) as (Hs & _).
  pose proof (addNode_sortedHashes c x info) as Hs'.
  assert (forall k, k ∈ Map_keys (ring (addNode x info c))
                    <-> k ∈ Map_keys (ring c) \/ k ∈ positionsOf (virtualNodes c) x) as Hkeys.
  { intros k. rewrite addNode_ring. apply keys_set_all. }
  destruct (decide (sortedHashes (addNode x info c) = [])) as [He|Hne'].
  { left. rewrite (getNode_empty _ _ He). symmetry. apply getNode_empty.
    assert (Map_keys (ring (addNode x info c)) = []) as He2.
    { apply sort_numeric_nil. exact He. }
    rewrite Hs. apply sort_numeric_nil.
    destruct (Map_keys (ring c)) as [|k ks] eqn:E; [done|].
    assert (k ∈ Map_keys (ring (addNode x info c))) as Hk.
    { apply Hkeys. left. rewrite ?E. left. }
    rewrite He2 in Hk. by apply elem_of_nil in Hk. }
  destruct (getNode_primary _ key Hs' Hne') as (q' & [Hin' Hmin'] & Hg').
  destruct (decide (q' ∈ positionsOf (virtualNodes c) x)) as [Hx|Hnx].
  { right. rewrite Hg', addNode_ring. apply set_all_owner. by right. }
  left. apply Hkeys in Hin' as [Hin|?]; [|done].
  assert (sortedHashes c <> []) as Hne.
  { rewrite Hs. intros E. apply (proj1 (sort_numeric_nil _)) in E. rewrite E in Hin.
    by apply elem_of_nil in Hin. }
  destruct (getNode_primary _ key Hs Hne) as (q & [Hinq Hmin] & Hg).
  assert (q ∈ Map_keys (ring (addNode x info c))) as Hq' by (apply Hkeys; by left).
  assert (q = q') as ->.
  { destruct Hmin' as [[Hp' Hm']|[Hall' Hm']], Hmin as [[Hp Hm]|[Hall Hm]].
    - specialize (Hm q' Hin Hp'). specialize (Hm' q Hq' Hp). lia.
    - specialize (Hall q' Hin). lia.
    - specialize (Hall' q Hq'). lia.
    - specialize (Hm q' Hin). specialize (Hm' q Hq'). lia. }
  rewrite Hg', Hg, addNode_ring. by apply set_all_other.
Qed.

Lemma addNode_moves_keys_to_new_node_witness :
  getNode (addNode "node-4" (alive "localhost:3004") ring_123) "user:1"
  = getNode ring_123 "user:1"
  \/ getNode (addNode "node-4" (alive "localhost:3004") ring_123) "user:1" = Some "node-4".
Proof. apply addNode_moves_keys_to_new_node, reachable_ring_123. Defined.

Lemma ring_AB_eq :
  ring_AB
  = addNode "B" (alive "localhost:3002")
      (addNode "A" (alive "localhost:3001") (new_ConsistentHashing 3 3)).
Proof. vm_compute. reflexivity. Qed.

Lemma reachable_ring_AB : reachable ring_AB.
Proof. rewrite ring_AB_eq. apply reachable_addNode, reachable_addNode, reachable_new. Qed.

Lemma primary_position_unique (c : ConsistentHashing) (key : string) (q q' : Z) :
  primary_position c key q -> primary_position c key q' -> q = q'.
Proof.
  intros [Hin [[Hp Hm]|[Hall Hm]]] [Hin' [[Hp' Hm']|[Hall' Hm']]].
  - specialize (Hm q' Hin' Hp'). specialize (Hm' q Hin Hp). lia.
  - specialize (Hall' q Hin). lia.
  - specialize (Hall q' Hin'). lia.
  - specialize (Hm q' Hin'). specialize (Hm' q Hin). lia.
Qed.

Lemma keys_delete_all (f : nat -> Z) (idxs : list nat) (m : list (Z * string)) (k : Z) :
  k ∈ Map_keys (delete_all f idxs m) <-> k ∈ Map_keys m /\ k ∉ f <$> idxs.
Proof.
  unfold Map_keys. split.
  - intros H. apply list_elem_of_fmap in H as ([p id] & -> & He).
    apply elem_of_delete_all in He as [He Hout]. split; [|done].
    apply list_elem_of_fmap. by exists (p, id).
  - intros [H Hout]. apply list_elem_of_fmap in H as ([p id] & -> & He).
    apply list_elem_of_fmap. exists (p, id). split; [done|].
    revert m He. induction idxs as [|i idxs IH]; intros m He; simpl; [done|].
    rewrite fmap_cons in Hout. apply not_elem_of_cons in Hout as [Hne Hout].
    apply IH; [done|]. by apply elem_of_Map_delete.
Qed.

Lemma Map_get_delete_all (f : nat -> Z) (idxs : list nat) (m : list (Z * string)) (p : Z) :
  p ∉ f <$> idxs -> Map_get (delete_all f idxs m) p = Map_get m p.
Proof.
  revert m. induction idxs as [|i idxs IH]; intros m Hp; simpl; [done|].
  rewrite fmap_cons in Hp. apply not_elem_of_cons in Hp as [Hne Hp].
  rewrite IH by done. by apply Map_get_delete_ne.
Qed.

(** X10: removing a node moves only the keys it served: in a reachable ring
    state where no other node sits at a virtual position of [x], a key whose
    primary is not [x] keeps its primary after [removeNode(x)]. *)
Theorem removeNode_keeps_other_keys (c : ConsistentHashing) (x : string) (key : string) :
  reachable c ->
  Forall (fun e => fst e ∈ positionsOf (virtualNodes c) x -> snd e = x) (ring c) ->
  getNode c key <> Some x ->
  getNode (snd (removeNode x c)) key = getNode c key.
Proof.
  intros Hc Hown Hnx.
  destruct (Map_has (nodes c) x) eqn:E; [|by rewrite removeNode_absent].
  pose proof (reachable_inv _ Hc) as (Hs & _).
  pose proof (reachable_inv _ (reachable_removeNode c x Hc)) as (Hs' & _).
  rewrite removeNode_present in * by done.
  set (c' := {| replicationFactor := replicationFactor c |}) in *.
  assert (forall k, k ∈ Map_keys (ring c')
                    <-> k ∈ Map_keys (ring c) /\ k ∉ positionsOf (virtualNodes c) x) as Hkeys.
  { intros k. apply keys_delete_all. }
  destruct (decide (sortedHashes c = [])) as [He|Hne].
  { rewrite (getNode_empty c key He). apply getNode_empty.
    rewrite Hs in He. apply (proj1 (sort_numeric_nil _)) in He.
    rewrite Hs'. apply sort_numeric_nil.
    destruct (Map_keys (ring c')) as [|k ks] eqn:Ek; [done|].
    assert (k ∈ Map_keys (ring c)) as Hk.
    { apply (Hkeys k). rewrite ?Ek. left. }
    rewrite He in Hk. by apply elem_of_nil in Hk. }
  destruct (getNode_primary _ key Hs Hne) as (q & Hprim & Hg).
  assert (q ∉ positionsOf (virtualNodes c) x) as Hq.
  { intros Hin. destruct Hprim as [Hk _].
    apply Map_get_is_Some in Hk as [id Hid]. rewrite Hid in Hg.
    apply Map_get_Some_elem in Hid. rewrite Forall_forall in Hown.
    specialize (Hown _ Hid Hin). simpl in Hown. subst id. done. }
  assert (primary_position c' key q) as Hprim'.
  { destruct Hprim as [Hk Hmin]. split; [by apply Hkeys|].
    destruct Hmin as [[Hp Hm]|[Hall Hm]].
    - left. split; [done|]. intros q' Hq' Hpq'. apply Hm; [|done]. by apply Hkeys.
    - right. split; intros q' Hq'; [apply Hall | apply Hm]; by apply Hkeys. }
  assert (sortedHashes c' <> []) as Hne'.
  { rewrite Hs'. intros E'. apply (proj1 (sort_numeric_nil _)) in E'.
    destruct Hprim' as [Hk _]. rewrite E' in Hk. by apply elem_of_nil in Hk. }
  destruct (getNode_primary _ key Hs' Hne') as (q' & Hq' & Hg').
  rewrite (primary_position_unique _ _ _ _ Hq' Hprim') in Hg'.
  rewrite Hg', Hg. by apply Map_get_delete_all.
Qed.

Lemma removeNode_keeps_other_keys_witness :
  getNode ring_AB "user:1" = Some "A"
  /\ getNode (snd (removeNode "B" ring_AB)) "user:1" = getNode ring_AB "user:1".
Proof.
  split; [vm_compute; reflexivity|].
  apply removeNode_keeps_other_keys.
  - apply reachable_ring_AB.
  - apply (bool_decide_unpack _). vm_compute. exact I.
  - vm_compute. discriminate.
Defined.

(** ** [getReplicaNodes], whatever the ring *)

Lemma replicaLoop_length (fuel : nat) (c : ConsistentHashing)
    (replicas r : list (option string)) (currentIndex : nat) :
  replicaLoop fuel c replicas currentIndex = Some r ->
  (length r <= max (length replicas) (min (replicationFactor c) (Map_size (nodes c))))%nat.
Proof.
  revert replicas currentIndex.
  induction fuel as [|fuel IH]; intros replicas currentIndex; simpl; [done|].
  rewrite loop_condition. case_bool_decide as Hlt.
  - intros H. apply IH in H.
    pose proof (length_Set_add (ownerAt c currentIndex) replicas). lia.
  - intros [= <-]. lia.
Qed.

Lemma replicaLoop_elements (fuel : nat) (c : ConsistentHashing)
    (replicas r : list (option string)) (currentIndex : nat) (P : option string -> Prop) :
  (forall i, (i < length (sortedHashes c))%nat -> P (ownerAt c i)) ->
  sortedHashes c <> [] ->
  (currentIndex < length (sortedHashes c))%nat ->
  Forall P replicas ->
  replicaLoop fuel c replicas currentIndex = Some r -> Forall P r.
Proof.
  intros HP Hne. revert replicas currentIndex.
  induction fuel as [|fuel IH]; intros replicas currentIndex Hi Hacc; simpl; [done|].
  destruct ((length replicas <? replicationFactor c)%nat
            && (length replicas <? Map_size (nodes c))%nat).
  - apply IH.
    + apply Nat.mod_upper_bound. destruct (sortedHashes c); [done | simpl; lia].
    + apply Forall_forall. intros o Ho. apply elem_of_Set_add in Ho as [->|Ho].
      * by apply HP.
      * rewrite Forall_forall in Hacc. by apply Hacc.
  - by intros [= <-].
Qed.

Lemma replicaLoop_extends (fuel : nat) (c : ConsistentHashing)
    (replicas r : list (option string)) (currentIndex : nat) :
  replicaLoop fuel c replicas currentIndex = Some r -> exists t, r = replicas ++ t.
Proof.
  revert replicas currentIndex.
  induction fuel as [|fuel IH]; intros replicas currentIndex; simpl; [done|].
  destruct ((length replicas <? replicationFactor c)%nat
            && (length replicas <? Map_size (nodes c))%nat).
  - intros H. apply IH in H as [t ->].
    destruct (Set_add_extends (ownerAt c currentIndex) replicas) as [t' ->].
    exists (t' ++ t). by rewrite app_assoc.
  - intros [= <-]. exists []. by rewrite app_nil_r.
Qed.

Lemma getReplicaNodes_length (fuel : nat) (c : ConsistentHashing) (key : string)
    (r : list (option string)) :
  getReplicaNodes fuel c key = Some r ->
  (length r <= min (replicationFactor c) (Map_size (nodes c)))%nat.
Proof.
  unfold getReplicaNodes. destruct (sortedHashes c).
  - intros [= <-]. simpl. lia.
  - intros H. apply replicaLoop_length in H. simpl in H. lia.
Qed.

(** X11: whenever [getReplicaNodes] returns in a reachable ring state, the
    list has no repeated id and at most [min R N] entries, each entry is a
    node of the node table, and a non-empty list starts with the primary
    [getNode] gives; on a ring without positions the list is empty. *)
Theorem getReplicaNodes_sound (fuel : nat) (c : ConsistentHashing) (key : string)
    (r : list (option string)) :
  reachable c ->
  getReplicaNodes fuel c key = Some r ->
  NoDup r
  /\ (length r <= min (replicationFactor c) (Map_size (nodes c)))%nat
  /\ Forall (fun o => exists id, o = Some id /\ is_Some (getNodeInfo c id)) r
  /\ (r <> [] -> head r = Some (getNode c key))
  /\ (ring c = [] -> r = []).
Proof.
  intros Hc Hr. pose proof (reachable_inv _ Hc) as (Hs & _ & _ & Ho).
  split; [by eapply getReplicaNodes_NoDup|].
  unfold getReplicaNodes in Hr.
  destruct (sortedHashes c) as [|p0 ps] eqn:Hsh.
  { injection Hr as <-. repeat split; try done. simpl. lia. }
  rewrite <- Hsh in *.
  assert (sortedHashes c <> []) as Hne by (rewrite Hsh; done).
  split; [|split; [|split]].
  - apply replicaLoop_length in Hr. simpl in Hr. lia.
  - eapply replicaLoop_elements; [| exact Hne | by apply startIndex_lt | constructor | exact Hr].
    intros i Hi. unfold ownerAt.
    destruct (lookup_lt_is_Some_2 _ _ Hi) as [p Hp]. rewrite Hp. simpl.
    assert (p ∈ Map_keys (ring c)) as Hk.
    { rewrite <- elem_of_sort_numeric, <- Hs. by eapply list_elem_of_lookup_2. }
    apply Map_get_is_Some in Hk as [id Hid]. exists id. split; [done|].
    apply Map_get_Some_elem in Hid. rewrite Forall_forall in Ho.
    destruct (Ho _ Hid) as [H1 _]. by apply Map_get_is_Some.
  - intros Hnil. rewrite getNode_ownerAt by done.
    destruct fuel as [|fuel]; [done|]. simpl in Hr.
    destruct ((0 <? replicationFactor c)%nat && (0 <? Map_size (nodes c))%nat).
    + apply replicaLoop_extends in Hr as [t ->].
      unfold Set_add. rewrite decide_False by apply not_elem_of_nil. reflexivity.
    + by injection Hr as <-.
  - intros Hempty. rewrite Hs, Hempty in Hsh. discriminate.
Qed.

Lemma getReplicaNodes_sound_witness :
  NoDup [Some "node-1"; Some "node-3"; Some "node-2"]
  /\ (3 <= min (replicationFactor ring_123) (Map_size (nodes ring_123)))%nat
  /\ Forall (fun o => exists id, o = Some id /\ is_Some (getNodeInfo ring_123 id))
            [Some "node-1"; Some "node-3"; Some "node-2"]
  /\ ([Some "node-1"; Some "node-3"; Some "node-2"] <> [] ->
      head [Some "node-1"; Some "node-3"; Some "node-2"] = Some (getNode ring_123 "user:1"))
  /\ (ring ring_123 = [] -> [Some "node-1"; Some "node-3"; Some "node-2"] = []).
Proof.
  apply (getReplicaNodes_sound 451 ring_123 "user:1").
  - apply reachable_ring_123.
  - vm_compute. reflexivity.
Defined.

(** ** The store of a node over its life *)

Section JSMapKeys.
Context {K V : Type} `{EqDecision K}.
Implicit Types (m : list (K * V)) (k : K) (v : V).

Lemma Map_keys_Map_set m k v :
  Map_keys (Map_set m k v)
  = if decide (k ∈ Map_keys m) then Map_keys m else Map_keys m ++ [k].
Proof.
  unfold Map_keys. induction m as [|[k' v'] m IH].
  - cbn [Map_set fmap list_fmap]. case_decide as H; [by apply elem_of_nil in H | done].
  - cbn [Map_set]. destruct (decide (k' = k)) as [->|Hne].
    + rewrite !fmap_cons. cbn [fst]. rewrite decide_True by left. done.
    + rewrite !fmap_cons. cbn [fst]. rewrite IH.
      destruct (decide (k ∈ fst <$> m)) as [Hin|Hout].
      * rewrite decide_True by (by right). done.
      * rewrite decide_False; [done|]. rewrite not_elem_of_cons. split; [congruence|done].
Qed.

Lemma Map_delete_filter m k : Map_delete m k = filter (fun e => fst e <> k) m.
Proof.
  induction m as [|[k' v'] m IH]; simpl; [done|].
  destruct (decide (k' = k)) as [->|Hne].
  - rewrite filter_cons_False by (simpl; auto). done.
  - rewrite filter_cons_True by done. by rewrite IH.
Qed.

Lemma Map_delete_list_filter m (ks : list K) :
  fold_left (fun m k => Map_delete m k) ks m = filter (fun e => fst e ∉ ks) m.
Proof.
  revert m. induction ks as [|k ks IH]; intros m; simpl.
  - symmetry. induction m as [|e m IHm]; [done|].
    rewrite filter_cons_True by apply not_elem_of_nil. by rewrite IHm.
  - rewrite IH, Map_delete_filter. clear IH.
    induction m as [|e m IHm]; [done|].
    destruct (decide (fst e = k)) as [He|He].
    + rewrite filter_cons_False by auto.
      rewrite (filter_cons_False _ e) by (rewrite He; intros H; apply H; left). done.
    + rewrite filter_cons_True by done.
      destruct (decide (fst e ∈ ks)) as [Hin|Hout].
      * rewrite !filter_cons_False; [done | |]; intros H; apply H; [by right|done].
      * rewrite !filter_cons_True; [by rewrite IHm | |done].
        rewrite not_elem_of_cons. done.
Qed.

Lemma Map_get_filter_keys m (P : K -> Prop) `{!forall k, Decision (P k)} k :
  Map_get (filter (fun e => P (fst e)) m) k = if decide (P k) then Map_get m k else None.
Proof.
  induction m as [|[k' v'] m IH]; simpl.
  - by destruct (decide (P k)).
  - destruct (decide (P k')) as [Hp|Hp].
    + rewrite filter_cons_True by done. simpl. rewrite IH.
      destruct (decide (k' = k)) as [->|Hne]; [|done].
      by rewrite decide_True.
    + rewrite filter_cons_False by done. rewrite IH.
      destruct (decide (k' = k)) as [->|Hne]; [|done].
      destruct (decide (P k)); done.
Qed.

End JSMapKeys.

Lemma checkForFailedNodes_fold (l : list (string * Z)) (acc : Node * list (string * Message))
    (now : Z) (bnow : string -> Z) :
  let r := fold_left
             (fun acc entry =>
                if now - snd entry >? failureThreshold
                then let r := handleNodeFailure (fst acc) (fst entry) (bnow (fst entry)) in
                     (fst r, snd acc ++ snd r)
                else acc) l acc in
  nodeId (fst r) = nodeId (fst acc)
  /\ data (fst r) = data (fst acc)
  /\ metadata (fst r) = metadata (fst acc)
  /\ peers (fst r) = fold_left (fun m k => Map_delete m k) (stale now l) (peers (fst acc))
  /\ lastHeartbeat (fst r)
     = fold_left (fun m k => Map_delete m k) (stale now l) (lastHeartbeat (fst acc)).
Proof.
  revert acc. induction l as [|[id t] l IH]; intros acc; simpl; [done|].
  unfold stale. destruct (Z.gtb_spec (now - t) failureThreshold) as [Hs|Hs].
  - rewrite filter_cons_True by (simpl; lia). simpl.
    specialize (IH (fst (handleNodeFailure (fst acc) id (bnow id)),
                    snd acc ++ snd (handleNodeFailure (fst acc) id (bnow id)))).
    simpl in IH. exact IH.
  - rewrite filter_cons_False by (simpl; lia). apply IH.
Qed.

Lemma checkForFailedNodes_state (n : Node) (now : Z) (bnow : string -> Z) :
  let n' := fst (checkForFailedNodes n now bnow) in
  nodeId n' = nodeId n /\ data n' = data n /\ metadata n' = metadata n
  /\ peers n' = filter (fun e => fst e ∉ stale now (lastHeartbeat n)) (peers n)
  /\ lastHeartbeat n'
     = filter (fun e => fst e ∉ stale now (lastHeartbeat n)) (lastHeartbeat n).
Proof.
  pose proof (checkForFailedNodes_fold (lastHeartbeat n) (n, []) now bnow) as H.
  simpl in H. rewrite !Map_delete_list_filter in H. exact H.
Qed.

Lemma node_step_cases (n : Node) (e : NodeEvent) :
  (nodeId (node_step n e) = nodeId n
   /\ data (node_step n e) = data n /\ metadata (node_step n e) = metadata n)
  \/ exists key value version now,
       event_key e = Some key /\ event_now e = Some now
       /\ node_step n e = storeData n key value version now.
Proof.
  destruct e as [key value version now|d now|d now| | | |now bnow]; simpl;
    try (left; done); try (right; by repeat eexists).
  - unfold handleReplication.
    destruct (Map_get (metadata n) (msg_key d)) as [m|];
      [destruct (timestamp (msg_metadata d) >? timestamp m)|];
      (left; done) || (right; by repeat eexists).
  - left. pose proof (checkForFailedNodes_state n now bnow) as H. simpl in H. tauto.
Qed.

(** What every state of a node's store satisfies. *)
Lemma node_run_store (id : string) (events : list NodeEvent) :
  let n := node_run (new_Node id) events in
  nodeId n = id
  /\ Map_keys (data n) = Map_keys (metadata n)
  /\ Forall (fun e => meta_nodeId (snd e) = id) (metadata n).
Proof.
  unfold node_run. induction events as [|e events IH] using rev_ind; simpl.
  - repeat split; constructor.
  - rewrite fold_left_app. simpl.
    set (n := fold_left node_step events (new_Node id)) in *.
    destruct IH as (Hid & Hk & Hm).
    destruct (node_step_cases n e) as [(-> & -> & ->)|(key & value & version & now & _ & _ & ->)];
      [done|].
    simpl. split; [done|]. split.
    + by rewrite !Map_keys_Map_set, Hk.
    + apply Forall_forall. intros x Hx. apply elem_of_Map_set in Hx as [Hx| ->].
      * rewrite Forall_forall in Hm. by apply Hm.
      * done.
Qed.

(** X14: whatever a node has been through since its constructor, a record
    that [getData] returns has a value other than [undefined] and carries
    metadata, those stored for the key, stamped with the node's own id. *)
Theorem getData_has_metadata (id : string) (events : list NodeEvent) (key : string)
    (r : StoredRecord) :
  getData (node_run (new_Node id) events) key = Some r ->
  value r <> Undefined
  /\ exists m, rec_metadata r = Some m /\ meta_nodeId m = id
               /\ Map_get (metadata (node_run (new_Node id) events)) key = Some m.
Proof.
  destruct (node_run_store id events) as (Hid & Hk & Hm).
  set (n := node_run (new_Node id) events) in *.
  unfold getData, data_get. case_decide as Hv; [|done]. intros [= <-]. simpl.
  split; [done|].
  destruct (Map_get (data n) key) as [v|] eqn:Hd; [|done].
  assert (key ∈ Map_keys (metadata n)) as Hin.
  { rewrite <- Hk. apply Map_get_Some_elem in Hd. unfold Map_keys.
    apply list_elem_of_fmap. by exists (key, v). }
  apply Map_get_is_Some in Hin as [m Hm'].
  exists m. split; [done|]. split; [|done].
  apply Map_get_Some_elem in Hm'. rewrite Forall_forall in Hm. by apply (Hm _ Hm').
Qed.

Lemma getData_has_metadata_witness :
  Json "v1" <> Undefined
  /\ exists m, Some {| version := 1; timestamp := 1005; meta_nodeId := "node-3" |} = Some m
               /\ meta_nodeId m = "node-3"
               /\ Map_get (metadata (node_run (new_Node "node-3")
                                       [recv_replicate_data first_write 1005;
                                        recv_replicate_data second_write 1006])) "k"
                  = Some m.
Proof.
  apply (getData_has_metadata "node-3"
           [recv_replicate_data first_write 1005; recv_replicate_data second_write 1006]
           "k"
           {| value := Json "v1";
              rec_metadata := Some {| version := 1; timestamp := 1005;
                                      meta_nodeId := "node-3" |} |}).
  reflexivity.
Defined.

Lemma clock_from_app (t : Z) (es1 es2 : list NodeEvent) :
  clock_from t (es1 ++ es2) <-> clock_from t es1 /\ clock_from (clock_after t es1) es2.
Proof.
  revert t. induction es1 as [|e es1 IH]; intros t; simpl; [tauto|].
  destruct (event_now e) as [now|]; simpl; rewrite IH; tauto.
Qed.

Lemma node_step_clock (n : Node) (e : NodeEvent) (t : Z) :
  (forall k m, Map_get (metadata n) k = Some m -> timestamp m <= t) ->
  clock_from t [e] ->
  (forall k m, Map_get (metadata (node_step n e)) k = Some m ->
               timestamp m <= default t (event_now e))
  /\ forall k m, Map_get (metadata n) k = Some m ->
       exists m', Map_get (metadata (node_step n e)) k = Some m'
                  /\ timestamp m <= timestamp m'.
Proof.
  intros Hj Hc. simpl in Hc.
  assert (t <= default t (event_now e)) as Hle.
  { destruct (event_now e); simpl; lia. }
  destruct (node_step_cases n e) as [(_ & _ & ->)|(key & value & version & now & _ & En & ->)].
  - split.
    + intros k m Hk. specialize (Hj k m Hk). lia.
    + intros k m Hk. exists m. split; [done|lia].
  - rewrite En in *. simpl in *. split.
    + intros k m. destruct (decide (key = k)) as [->|Hne].
      * rewrite Map_get_set_eq. intros [= <-]. simpl. lia.
      * rewrite Map_get_set_ne by done. intros Hk. specialize (Hj k m Hk). lia.
    + intros k m Hk. destruct (decide (key = k)) as [->|Hne].
      * rewrite Map_get_set_eq. eexists. split; [done|]. simpl.
        specialize (Hj k m Hk). lia.
      * rewrite Map_get_set_ne by done. exists m. split; [done|lia].
Qed.

Lemma node_run_clock (events : list NodeEvent) (n : Node) (t : Z) :
  (forall k m, Map_get (metadata n) k = Some m -> timestamp m <= t) ->
  clock_from t events ->
  (forall k m, Map_get (metadata (node_run n events)) k = Some m ->
               timestamp m <= clock_after t events)
  /\ forall k m, Map_get (metadata n) k = Some m ->
       exists m', Map_get (metadata (node_run n events)) k = Some m'
                  /\ timestamp m <= timestamp m'.
Proof.
  revert n t. induction events as [|e events IH]; intros n t Hj Hc.
  - simpl. split; [done|]. intros k m Hk. exists m. split; [done|lia].
  - change (e :: events) with ([e] ++ events) in Hc.
    apply clock_from_app in Hc as [Hc1 Hc2].
    destruct (node_step_clock n e t Hj Hc1) as [Hj' Hmono].
    destruct (IH (node_step n e) (clock_after t [e]) Hj' Hc2) as [Hj'' Hmono'].
    split; [exact Hj''|].
    intros k m Hk. destruct (Hmono k m Hk) as (m1 & Hk1 & Hle1).
    destruct (Hmono' k m1 Hk1) as (m2 & Hk2 & Hle2).
    exists m2. split; [exact Hk2 | lia].
Qed.

(** X15: no handler removes a key from the store, and when the node's clock
    never runs backwards the timestamp stored for a key never decreases:
    what is stored for [key] at one moment is still stored under a timestamp
    at least as large after any further events. *)
Theorem stored_timestamp_never_decreases (id : string) (before after : list NodeEvent)
    (t : Z) (key : string) (m : Metadata) :
  clock_from t (before ++ after) ->
  Map_get (metadata (node_run (new_Node id) before)) key = Some m ->
  exists m', Map_get (metadata (node_run (new_Node id) (before ++ after))) key = Some m'
             /\ timestamp m <= timestamp m'.
Proof.
  intros Hc Hk. apply clock_from_app in Hc as [Hc1 Hc2].
  destruct (node_run_clock before (new_Node id) t) as [Hj _]; [done|done|].
  unfold node_run at 1. rewrite fold_left_app.
  destruct (node_run_clock after (node_run (new_Node id) before) _ Hj Hc2) as [_ Hmono].
  by apply Hmono.
Qed.

Lemma stored_timestamp_never_decreases_witness :
  exists m', Map_get (metadata (node_run (new_Node "node-3")
                                  ([recv_replicate_data first_write 1005]
                                   ++ [recv_write_request second_write 1006]))) "k"
             = Some m'
             /\ 1005 <= timestamp m'.
Proof.
  apply (stored_timestamp_never_decreases "node-3" [recv_replicate_data first_write 1005]
           [recv_write_request second_write 1006] 0 "k"
           {| version := 1; timestamp := 1005; meta_nodeId := "node-3" |}).
  - simpl. lia.
  - reflexivity.
Defined.

(** X16: a handler touches at most the record of the key it is given: the
    record of every other key reads as before, and the peer handlers and the
    failure check leave every record as it is. *)
Theorem node_step_other_keys (n : Node) (e : NodeEvent) (key : string) :
  event_key e <> Some key ->
  getData (node_step n e) key = getData n key
  /\ Map_get (metadata (node_step n e)) key = Map_get (metadata n) key.
Proof.
  intros Hne.
  destruct (node_step_cases n e) as [(_ & Hd & Hm)|(k & value & version & now & Ek & _ & ->)].
  - unfold getData, data_get. by rewrite Hd, Hm.
  - assert (k <> key) as Hk by congruence.
    unfold getData, data_get. simpl. by rewrite !Map_get_set_ne.
Qed.

Lemma node_step_other_keys_witness :
  getData (node_step (storeData (new_Node "node-3") "k" (Json "v1") 1 1005)
                     (recv_write_request
                        {| msg_key := "other"; msg_value := Json "w";
                           msg_metadata := {| version := 1; timestamp := 1;
                                              meta_nodeId := "node-1" |} |} 1006)) "k"
  = getData (storeData (new_Node "node-3") "k" (Json "v1") 1 1005) "k"
  /\ Map_get (metadata
                (node_step (storeData (new_Node "node-3") "k" (Json "v1") 1 1005)
                   (recv_write_request
                      {| msg_key := "other"; msg_value := Json "w";
                         msg_metadata := {| version := 1; timestamp := 1;
                                            meta_nodeId := "node-1" |} |} 1006))) "k"
     = Map_get (metadata (storeData (new_Node "node-3") "k" (Json "v1") 1 1005)) "k".
Proof.
  apply (node_step_other_keys _ (recv_write_request
                        {| msg_key := "other"; msg_value := Json "w";
                           msg_metadata := {| version := 1; timestamp := 1;
                                              meta_nodeId := "node-1" |} |} 1006) "k").
  simpl. discriminate.
Defined.

(** ** The failure check of the heartbeat timer *)

Lemma filter_ext_elem {A : Type} (P Q : A -> Prop) `{!forall x, Decision (P x)}
    `{!forall x, Decision (Q x)} (l : list A) :
  (forall x, x ∈ l -> P x <-> Q x) -> filter P l = filter Q l.
Proof.
  induction l as [|x l IH]; intros Hpq; [done|].
  assert (P x <-> Q x) as Hx by (apply Hpq; left).
  assert (filter P l = filter Q l) as Hl by (apply IH; intros y Hy; apply Hpq; by right).
  destruct (decide (P x)) as [Hp|Hp].
  - rewrite !filter_cons_True by tauto. by rewrite Hl.
  - rewrite !filter_cons_False by tauto. done.
Qed.

Lemma elem_of_stale (now : Z) (heartbeats : list (string * Z)) (id : string) :
  id ∈ stale now heartbeats
  <-> exists t, (id, t) ∈ heartbeats /\ now - t > failureThreshold.
Proof.
  unfold stale. rewrite list_elem_of_fmap. split.
  - intros ([id' t] & -> & H). apply list_elem_of_filter in H as [H1 H2]. by exists t.
  - intros (t & H1 & H2). exists (id, t). split; [done|].
    apply list_elem_of_filter. done.
Qed.

Lemma stale_NoDup (now : Z) (heartbeats : list (string * Z)) (e : string * Z) :
  NoDup (Map_keys heartbeats) -> e ∈ heartbeats ->
  fst e ∈ stale now heartbeats <-> now - snd e > failureThreshold.
Proof.
  intros Hnd He. rewrite elem_of_stale. destruct e as [id t]. simpl. split.
  - intros (t' & Hin & Hs).
    assert (Some t' = Some t) as [= ->]; [|done].
    rewrite <- (Map_get_elem_NoDup heartbeats id t') by done.
    by apply Map_get_elem_NoDup.
  - intros Hs. by exists t.
Qed.

(** X17: the failure check keeps exactly the peers last heard of at most
    10000 ms ago: the heartbeat map becomes its entries that are not older
    (one heard of exactly 10000 ms ago stays), a peer with an older entry is
    out of the peer table, every other entry of the peer table is as before,
    and the store is untouched. *)
Theorem checkForFailedNodes_keeps_fresh (n : Node) (now : Z) (bnow : string -> Z) :
  NoDup (Map_keys (lastHeartbeat n)) ->
  let n' := fst (checkForFailedNodes n now bnow) in
  lastHeartbeat n' = filter (fun e => now - snd e <= 10000) (lastHeartbeat n)
  /\ (forall id,
        Map_get (peers n') id
        = match Map_get (lastHeartbeat n) id with
          | Some t => if now - t >? 10000 then None else Map_get (peers n) id
          | None => Map_get (peers n) id
          end)
  /\ data n' = data n /\ metadata n' = metadata n.
Proof.
  intros Hnd n'. destruct (checkForFailedNodes_state n now bnow) as (_ & Hd & Hm & Hp & Hh).
  fold n' in Hd, Hm, Hp, Hh. split; [|split; [|done]].
  - rewrite Hh. apply filter_ext_elem. intros e He.
    rewrite (stale_NoDup now _ e Hnd He). unfold failureThreshold. lia.
  - intros id. rewrite Hp.
    pose proof (Map_get_filter_keys (peers n) (fun k => k ∉ stale now (lastHeartbeat n)) id)
      as Hq.
    cbv beta in Hq. rewrite Hq. clear Hq.
    destruct (Map_get (lastHeartbeat n) id) as [t|] eqn:Ht.
    + apply Map_get_Some_elem in Ht.
      pose proof (stale_NoDup now _ (id, t) Hnd Ht) as Hs. simpl in Hs.
      unfold failureThreshold in Hs.
      destruct (Z.gtb_spec (now - t) 10000); case_decide as Hc; try done.
      * exfalso. apply Hc, Hs. lia.
      * exfalso. apply Hs in Hc. lia.
    + apply Map_get_None in Ht. rewrite decide_True; [done|].
      rewrite elem_of_stale. intros (t & Hin & _). apply Ht.
      unfold Map_keys. apply list_elem_of_fmap. by exists (id, t).
Qed.

Lemma checkForFailedNodes_keeps_fresh_witness :
  let n' := fst (checkForFailedNodes (localNode cluster_123) 12000 (fun _ => 12000)) in
  lastHeartbeat n' = filter (fun e => 12000 - snd e <= 10000) (lastHeartbeat (localNode cluster_123))
  /\ (forall id,
        Map_get (peers n') id
        = match Map_get (lastHeartbeat (localNode cluster_123)) id with
          | Some t => if 12000 - t >? 10000 then None
                      else Map_get (peers (localNode cluster_123)) id
          | None => Map_get (peers (localNode cluster_123)) id
          end)
  /\ data n' = data (localNode cluster_123) /\ metadata n' = metadata (localNode cluster_123).
Proof.
  apply (checkForFailedNodes_keeps_fresh (localNode cluster_123) 12000 (fun _ => 12000)).
  simpl. apply NoDup_cons. split; [|apply NoDup_singleton].
  rewrite list_elem_of_singleton. discriminate.
Defined.

Lemma checkForFailedNodes_messages (n : Node) (now : Z) (bnow : string -> Z)
    (Q : string * Message -> Prop) (l : list (string * Z))
    (acc : Node * list (string * Message)) :
  (forall failed t to p,
     (failed, t) ∈ l -> now - t > failureThreshold ->
     to <> failed -> (to, p) ∈ peers n -> socket_connected p = true ->
     Q (to, node_failure failed (nodeId n) (bnow failed))) ->
  nodeId (fst acc) = nodeId n ->
  (forall e, e ∈ peers (fst acc) -> e ∈ peers n) ->
  Forall Q (snd acc) ->
  Forall Q (snd (fold_left
                   (fun acc entry =>
                      if now - snd entry >? failureThreshold
                      then let r := handleNodeFailure (fst acc) (fst entry)
                                      (bnow (fst entry)) in
                           (fst r, snd acc ++ snd r)
                      else acc) l acc)).
Proof.
  revert acc. induction l as [|[id t] l IH]; intros acc HQ Hid Hsub Hacc; simpl; [done|].
  assert (forall failed t to p,
             (failed, t) ∈ l -> now - t > failureThreshold ->
             to <> failed -> (to, p) ∈ peers n -> socket_connected p = true ->
             Q (to, node_failure failed (nodeId n) (bnow failed))) as HQ'.
  { intros failed t' to p Hin. apply HQ. by right. }
  destruct (Z.gtb_spec (now - t) failureThreshold) as [Hs|Hs]; [|by apply IH].
  apply IH; simpl; [done|done| |].
  - intros e He. apply elem_of_Map_delete in He as [He _]. by apply Hsub.
  - apply Forall_app. split; [done|].
    unfold broadcastNodeFailure. simpl. apply Forall_forall. intros x Hx.
    apply list_elem_of_fmap in Hx as ([to p] & -> & Hx).
    apply list_elem_of_filter in Hx as [Hconn Hx]. simpl in *.
    apply elem_of_Map_delete in Hx as [Hx Hne]. simpl in Hne.
    rewrite Hid. apply (HQ id t to p); [left|lia|done|by apply Hsub|done].
Qed.

(** X18: every [node_failure] message the failure check emits names a peer
    whose last heartbeat is more than 10000 ms old, is reported under the
    node's own id, and goes to a peer of the table with a connected socket
    other than the peer it names: a node is never told of its own failure. *)
Theorem node_failure_recipients (n : Node) (now : Z) (bnow : string -> Z)
    (to : string) (msg : Message) :
  (to, msg) ∈ snd (checkForFailedNodes n now bnow) ->
  exists failed t p,
    msg = node_failure failed (nodeId n) (bnow failed)
    /\ (failed, t) ∈ lastHeartbeat n /\ now - t > 10000
    /\ to <> failed /\ (to, p) ∈ peers n /\ socket_connected p = true.
Proof.
  intros Hin.
  set (Q := fun x : string * Message => exists failed t p,
       snd x = node_failure failed (nodeId n) (bnow failed)
       /\ (failed, t) ∈ lastHeartbeat n /\ now - t > 10000
       /\ fst x <> failed /\ (fst x, p) ∈ peers n /\ socket_connected p = true).
  assert (Forall Q (snd (checkForFailedNodes n now bnow))) as HF.
  { apply (checkForFailedNodes_messages n now bnow Q (lastHeartbeat n) (n, [])); simpl.
    - intros failed t to' p ? ? ? ? ?. by exists failed, t, p.
    - done.
    - done.
    - constructor. }
  rewrite Forall_forall in HF. exact (HF _ Hin).
Qed.

Lemma node_failure_recipients_witness :
  exists failed t p,
    node_failure "node-2" "node-1" 12000 = node_failure failed (nodeId (localNode cluster_123)) 12000
    /\ (failed, t) ∈ lastHeartbeat (localNode cluster_123) /\ 12000 - t > 10000
    /\ "node-3" <> failed /\ ("node-3", p) ∈ peers (localNode cluster_123)
    /\ socket_connected p = true.
Proof.
  apply (node_failure_recipients (localNode cluster_123) 12000 (fun _ => 12000) "node-3"
           (node_failure "node-2" "node-1" 12000)).
  simpl. left.
Defined.



(** ** The counts of a PUT *)

Lemma length_replicateToPeers (n : Node) (acked : string -> bool)
    (targetNodes : list (option string)) :
  (length (replicateToPeers n acked targetNodes)
   <= length (filter (fun t => t <> Some (nodeId n)) targetNodes))%nat.
Proof.
  induction targetNodes as [|[id|] rest IH]; [simpl; lia| |]; cbn [replicateToPeers].
  - destruct (decide (id = nodeId n)) as [->|Hne].
    + rewrite filter_cons_False by auto. done.
    + rewrite filter_cons_True by congruence.
      destruct (Map_get (peers n) id) as [[? ? [sock|] ?]|]; simpl; lia.
  - rewrite filter_cons_True by done. simpl. lia.
Qed.

Lemma length_filter_out {A : Type} `{EqDecision A} (x : A) (l : list A) :
  x ∈ l -> (length (filter (fun t => t <> x) l) < length l)%nat.
Proof.
  induction l as [|y l IH]; [intros H; by apply elem_of_nil in H|].
  rewrite elem_of_cons. intros Hin.
  destruct (decide (y = x)) as [->|Hne].
  - rewrite filter_cons_False by auto. simpl.
    pose proof (length_filter (fun t => t <> x) l). lia.
  - rewrite filter_cons_True by done. simpl.
    destruct Hin as [->|Hin]; [done|]. specialize (IH Hin). lia.
Qed.

Lemma put_node_id (c : Cluster) (l : list (option string)) (key : string) (value : Value)
    (now : Z) :
  let node' := if includes l (nodeId (localNode c))
               then storeData (localNode c) key value 1 now else localNode c in
  nodeId node' = nodeId (localNode c) /\ peers node' = peers (localNode c).
Proof. simpl. by destruct (includes l (nodeId (localNode c))). Qed.

(** X20: the write results of a PUT are for pairwise distinct replicas of
    the key, so the count of successful writes is at most the number of
    replicas, itself at most [min R N]: a PUT never succeeds on a ring with
    fewer nodes than the quorum, or with a replication factor below it. *)
Theorem put_counts (fuel : nat) (c c' : Cluster) (key : string) (value : Value)
    (now_put now_store : Z) (acked : string -> bool) (r : PutResult) :
  put fuel c key value now_put now_store acked = Some (c', r) ->
  NoDup (wr_nodeId <$> writeResults r)
  /\ (forall x, x ∈ writeResults r -> Some (wr_nodeId x) ∈ replicaNodes r)
  /\ (successfulWrites r <= length (writeResults r) <= length (replicaNodes r))%nat
  /\ (length (replicaNodes r)
      <= min (replicationFactor (consistentHashing c))
             (Map_size (nodes (consistentHashing c))))%nat
  /\ (success r = true ->
      (quorumSize c <= min (replicationFactor (consistentHashing c))
                           (Map_size (nodes (consistentHashing c))))%nat).
Proof.
  intros Hput. apply put_inv in Hput as (Hrep & _ & Hres & HS & Hsucc).
  pose proof (getReplicaNodes_NoDup _ _ _ _ Hrep) as Hnd.
  pose proof (getReplicaNodes_length _ _ _ _ Hrep) as Hlen.
  set (self := nodeId (localNode c)) in *.
  set (node' := if includes (replicaNodes r) self
                then storeData (localNode c) key value 1 now_store else localNode c) in *.
  destruct (put_node_id c (replicaNodes r) key value now_store) as [Hid Hpeers].
  fold self node' in Hid, Hpeers.
  assert (NoDup (omap (fun t => t) (replicaNodes r))) as Hnd' by (by apply NoDup_omap_id).
  assert (length (writeResults r) <= length (replicaNodes r))%nat as Hle.
  { rewrite Hres, length_app.
    pose proof (length_replicateToPeers node' acked (replicaNodes r)) as Hl.
    rewrite Hid in Hl. unfold includes.
    case_bool_decide as Hin; simpl.
    - pose proof (length_filter_out (Some self) (replicaNodes r) Hin). lia.
    - pose proof (length_filter (fun t => t <> Some self) (replicaNodes r)). lia. }
  assert (successfulWrites r <= length (writeResults r))%nat as HSle.
  { rewrite HS. apply length_filter. }
  split; [|split; [|split; [lia|split; [lia|]]]].
  - rewrite Hres, fmap_app, replicateToPeers_nodeIds, Hid. unfold includes.
    case_bool_decide as Hin; simpl; [|by apply NoDup_filter].
    apply NoDup_cons. split; [|by apply NoDup_filter].
    intros H. apply list_elem_of_filter in H as [[H _] _]. done.
  - intros x. rewrite Hres, elem_of_app. unfold includes.
    intros [Hx|Hx].
    + case_bool_decide as Hin; [|by apply elem_of_nil in Hx].
      apply list_elem_of_singleton in Hx as ->. done.
    + assert (wr_nodeId x ∈ wr_nodeId <$> replicateToPeers node' acked (replicaNodes r))
        as Hx' by (apply list_elem_of_fmap; by exists x).
      rewrite replicateToPeers_nodeIds in Hx'.
      apply list_elem_of_filter in Hx' as [_ Hx']. by apply elem_of_omap_id.
  - rewrite Hsucc. intros Hq. apply Nat.leb_le in Hq. lia.
Qed.

Lemma put_counts_witness :
  let r := {| success := false; key := "user:1";
              replicaNodes := [Some "node-1"; Some "node-3"; Some "node-2"];
              successfulWrites := 1; put_quorumSize := 2; quorumAchieved := false;
              writeResults :=
                [{| wr_nodeId := "node-1"; wr_success := true; wr_error := None |}] |} in
  NoDup (wr_nodeId <$> writeResults r)
  /\ (forall x, x ∈ writeResults r -> Some (wr_nodeId x) ∈ replicaNodes r)
  /\ (successfulWrites r <= length (writeResults r) <= length (replicaNodes r))%nat
  /\ (length (replicaNodes r)
      <= min (replicationFactor (consistentHashing cluster_123_unlinked))
             (Map_size (nodes (consistentHashing cluster_123_unlinked))))%nat
  /\ (success r = true ->
      (quorumSize cluster_123_unlinked
       <= min (replicationFactor (consistentHashing cluster_123_unlinked))
              (Map_size (nodes (consistentHashing cluster_123_unlinked))))%nat).
Proof.
  apply (put_counts 451 cluster_123_unlinked
           (with_node cluster_123_unlinked
              (storeData (new_Node "node-1") "user:1" (Json "John") 1 1001))
           "user:1" (Json "John") 1000 1001 all_ack).
  vm_compute. reflexivity.
Defined.

(** ** Reading what was written *)

Lemma latestResult_first (first : ReadResult) (rest : list ReadResult) (t0 : Z) :
  result_timestamp first = Some t0 ->
  Forall (fun x => exists tx, result_timestamp x = Some tx /\ tx <= t0) rest ->
  latestResult first rest = Normal first.
Proof.
  intros H0 Hrest. unfold latestResult.
  induction Hrest as [|x rest (tx & Hx & Hle) _ IH]; simpl; [done|].
  rewrite Hx, H0. destruct (Z.gtb_spec tx t0); [lia|]. exact IH.
Qed.

Lemma readFromPeer_success (n : Node) (replies : string -> ReadReply) (id : string) :
  rr_success (readFromPeer n replies id) = true ->
  exists response,
    replies id = Replied (Some response)
    /\ rr_data (readFromPeer n replies id) = Some response.
Proof.
  unfold readFromPeer.
  destruct (Map_get (peers n) id) as [[? ? [sock|] ?]|]; try done.
  destruct (replies id) as [[response|]|]; try done.
  intros _. by exists response.
Qed.

Lemma collectReads_peers (c : Cluster) (replies : string -> ReadReply)
    (replicaNodes : list (option string)) (x : ReadResult) :
  x ∈ filter (fun r => rr_success r = true)
        (readFromPeer (localNode c) replies
           <$> omap (fun t => t)
                 (filter (fun t => t <> Some (nodeId (localNode c))) replicaNodes)) ->
  exists id response,
    Some id ∈ replicaNodes /\ id <> nodeId (localNode c)
    /\ replies id = Replied (Some response) /\ rr_data x = Some response.
Proof.
  intros Hx. apply list_elem_of_filter in Hx as [Hs Hx].
  apply list_elem_of_fmap in Hx as (id & -> & Hid).
  apply elem_of_omap_id in Hid. apply list_elem_of_filter in Hid as [Hne Hid].
  apply readFromPeer_success in Hs as (response & Hr & Hd).
  exists id, response. repeat split; [done|congruence|done|done].
Qed.

(** X21: a GET that follows a PUT on the same coordinator returns the value
    and the metadata the PUT stored, whether or not the PUT reached its
    quorum, when the coordinator is a replica of the key, the value is not
    [undefined] and no peer answers with a record stamped later than the
    coordinator's. *)
Theorem get_after_put (fuel : nat) (c c' : Cluster) (key : string) (value : Value)
    (now_put now_store : Z) (acked : string -> bool) (r : PutResult)
    (replies : string -> ReadReply) :
  put fuel c key value now_put now_store acked = Some (c', r) ->
  includes (replicaNodes r) (nodeId (localNode c)) = true ->
  value <> Undefined ->
  (forall id response,
     replies id = Replied (Some response) ->
     exists m, rec_metadata response = Some m /\ timestamp m <= now_store) ->
  chosen (get fuel c' key replies)
  = Some (value, Some {| version := 1; timestamp := now_store;
                         meta_nodeId := nodeId (localNode c) |}).
Proof.
  intros Hput Hin Hv Hreplies.
  apply put_inv in Hput as (Hrep & -> & _). simpl in *. rewrite Hin in *.
  unfold get. simpl. rewrite Hrep. unfold collectReads. simpl. rewrite Hin.
  rewrite getData_storeData, decide_True by done. simpl.
  rewrite (latestResult_first _ _ now_store); [reflexivity|reflexivity|].
  apply Forall_forall. intros x Hx.
  apply (collectReads_peers
           (with_node c (storeData (localNode c) key value 1 now_store))) in Hx
    as (id & response & _ & _ & Hr & Hd).
  destruct (Hreplies id response Hr) as (m & Hm & Hle).
  exists (timestamp m). split; [|done].
  unfold result_timestamp. rewrite Hd. destruct response. simpl in Hm. by rewrite Hm.
Qed.

Lemma get_after_put_witness :
  chosen (get 451 (with_node cluster_123_unlinked
                     (storeData (new_Node "node-1") "user:1" (Json "John") 1 1001))
              "user:1" no_reply)
  = Some (Json "John", Some {| version := 1; timestamp := 1001;
                               meta_nodeId := nodeId (localNode cluster_123_unlinked) |}).
Proof.
  apply (get_after_put 451 cluster_123_unlinked _ "user:1" (Json "John") 1000 1001 all_ack
           {| success := false; key := "user:1";
              replicaNodes := [Some "node-1"; Some "node-3"; Some "node-2"];
              successfulWrites := 1; put_quorumSize := 2; quorumAchieved := false;
              writeResults :=
                [{| wr_nodeId := "node-1"; wr_success := true; wr_error := None |}] |}).
  - vm_compute. reflexivity.
  - reflexivity.
  - discriminate.
  - intros id response H. discriminate.
Defined.

(** ** A GET among nodes that have only run their handlers *)

Lemma getData_metadata (n : Node) (key : string) (d : StoredRecord) :
  Map_keys (data n) = Map_keys (metadata n) ->
  getData n key = Some d -> is_Some (rec_metadata d).
Proof.
  intros Hk. unfold getData, data_get. case_decide as Hv; [|done]. intros [= <-]. simpl.
  destruct (Map_get (data n) key) as [v|] eqn:Hd; [|done].
  apply Map_get_is_Some. rewrite <- Hk. apply Map_get_Some_elem in Hd.
  unfold Map_keys. apply list_elem_of_fmap. by exists (key, v).
Qed.

Lemma born_getData (n : Node) (key : string) (d : StoredRecord) :
  born n -> getData n key = Some d -> is_Some (rec_metadata d).
Proof.
  intros (id & events & ->). apply getData_metadata.
  by destruct (node_run_store id events) as (_ & ? & _).
Qed.

Lemma latestResult_total (first : ReadResult) (rest : list ReadResult) :
  Forall (fun x => is_Some (result_timestamp x)) (first :: rest) ->
  exists x, latestResult first rest = Normal x /\ x ∈ first :: rest.
Proof.
  unfold latestResult. revert first.
  induction rest as [|y rest IH]; intros first Hall; simpl.
  - exists first. split; [done|left].
  - apply Forall_cons in Hall as [[t0 H0] Hall].
    pose proof Hall as Hall'. apply Forall_cons in Hall' as [[ty Hy] Hrest].
    rewrite Hy, H0.
    destruct (IH (if ty >? t0 then y else first)) as (x & Hx & Hin).
    { apply Forall_cons. split; [|done]. destruct (ty >? t0); by eexists. }
    exists x. split; [done|].
    apply elem_of_cons in Hin as [->|Hin].
    + destruct (ty >? t0); [right; left | left].
    + right; by right.
Qed.

Lemma get_completes (fuel : nat) (c : Cluster) (key : string)
    (replies : string -> ReadReply) :
  (forall d, getData (localNode c) key = Some d -> is_Some (rec_metadata d)) ->
  (forall id response, replies id = Replied (Some response) ->
                       is_Some (rec_metadata response)) ->
  get fuel c key replies <> Some TypeError.
Proof.
  intros Hlocal Hreplies. unfold get.
  destruct (getReplicaNodes fuel (consistentHashing c) key) as [l|]; [|done].
  assert (Forall (fun x => exists d, rr_data x = Some d /\ is_Some (rec_metadata d))
                 (collectReads c key replies l)) as Hall.
  { unfold collectReads. apply Forall_app. split.
    - destruct (includes l (nodeId (localNode c))); [|constructor].
      destruct (getData (localNode c) key) as [d|] eqn:Hd; [|constructor].
      repeat constructor. exists d. split; [done|]. by apply Hlocal.
    - apply Forall_forall. intros x Hx.
      apply collectReads_peers in Hx as (id & response & _ & _ & Hr & Hd).
      exists response. split; [done|]. by eapply Hreplies. }
  destruct (collectReads c key replies l) as [|first rest]; [done|].
  destruct (latestResult_total first rest) as (x & -> & Hx).
  { eapply Forall_impl; [exact Hall|]. intros y (d & Hd & [m Hm]).
    exists (timestamp m). unfold result_timestamp. rewrite Hd. destruct d. simpl in Hm.
    by rewrite Hm. }
  rewrite Forall_forall in Hall. destruct (Hall x Hx) as (d & -> & _). done.
Qed.

(** X22: among nodes that have only run their handlers since their
    constructors, the route [GET /data/:key] never answers 500: every record
    read, locally or from a peer, carries its metadata, so the reduction over
    the read results never throws; the answer is the record or 404. *)
Theorem world_get_never_fails (fuel : nat) (w : World) (key : string)
    (answers : string -> bool) :
  born (localNode (coordinator w)) ->
  Forall (fun e => born (snd e)) (remotes w) ->
  world_get fuel w key answers <> Some Error500.
Proof.
  intros Hlocal Hremotes. unfold world_get, http_get.
  pose proof (get_completes fuel (coordinator w) key (world_replies w answers key)) as H.
  destruct (get fuel (coordinator w) key (world_replies w answers key))
    as [[[g|]|]|]; try done.
  exfalso. apply H; [| |done].
  - intros d. by apply born_getData.
  - intros id response. unfold world_replies.
    destruct (Map_get (remotes w) id) as [n|] eqn:Hn; [|done].
    destruct (answers id); [|done]. intros [= Hr].
    apply Map_get_Some_elem in Hn. rewrite Forall_forall in Hremotes.
    apply (born_getData n key); [exact (Hremotes _ Hn) | exact Hr].
Qed.

Lemma world_get_never_fails_witness :
  world_get 451 world_123 "user:1" (fun _ => true) <> Some Error500.
Proof.
  apply (world_get_never_fails 451 world_123 "user:1" (fun _ => true)).
  - exists "node-1", [recv_identify "node-2" "localhost:3002" {| connected := true |} 0;
                      recv_identify "node-3" "localhost:3003" {| connected := true |} 5000].
    reflexivity.
  - repeat constructor; simpl; [by exists "node-2", [] | by exists "node-3", []].
Defined.

(** ** A node on its own *)

Lemma single_owner_replicas (c : ConsistentHashing) (id : string) (f : nat -> Z)
    (idxs : list nat) (fuel : nat) (key : string) :
  Map_size (nodes c) = 1%nat ->
  ring c = set_all f id idxs [] ->
  idxs <> [] ->
  sortedHashes c = sort_numeric (Map_keys (ring c)) ->
  (2 <= fuel)%nat ->
  getReplicaNodes fuel c key
  = Some (if decide (replicationFactor c = 0%nat) then [] else [Some id]).
Proof.
  intros Hn Hring Hidxs Hs Hfuel.
  assert (forall p, p ∈ sortedHashes c -> Map_get (ring c) p = Some id) as Hown.
  { intros p Hp. rewrite Hs, elem_of_sort_numeric, Hring in Hp.
    apply keys_set_all in Hp as [Hp|Hp]; [by apply elem_of_nil in Hp|].
    rewrite Hring. apply set_all_owner. by right. }
  assert (sortedHashes c <> []) as Hne.
  { destruct idxs as [|i idxs]; [done|].
    assert (f i ∈ sortedHashes c) as Hin.
    { rewrite Hs, elem_of_sort_numeric, Hring. apply keys_set_all. right.
      rewrite fmap_cons. left. }
    intros E. rewrite E in Hin. by apply elem_of_nil in Hin. }
  unfold getReplicaNodes. destruct (sortedHashes c) as [|p0 ps] eqn:Hsh; [done|].
  rewrite <- Hsh in *.
  destruct fuel as [|[|fuel]]; [lia|lia|].
  cbn [replicaLoop]. rewrite !loop_condition, Hn.
  assert (ownerAt c (startIndex c key) = Some id) as Ho.
  { unfold ownerAt. pose proof (startIndex_lt c key Hne) as Hlt.
    destruct (lookup_lt_is_Some_2 _ _ Hlt) as [p Hp]. rewrite Hp. simpl.
    apply Hown. by eapply list_elem_of_lookup_2. }
  rewrite Ho. unfold Set_add. rewrite decide_False by apply not_elem_of_nil.
  destruct (decide (replicationFactor c = 0%nat)) as [E|E].
  - rewrite E. simpl. reflexivity.
  - rewrite bool_decide_true by (simpl; lia). simpl.
    rewrite bool_decide_false by (simpl; lia). reflexivity.
Qed.

Lemma createNode_replicas (R : nat) (id address key : string) (fuel : nat) :
  (2 <= fuel)%nat ->
  getReplicaNodes fuel (consistentHashing (createNode R id address)) key
  = Some (if decide (R = 0%nat) then [] else [Some id]).
Proof.
  intros Hfuel.
  apply (single_owner_replicas (consistentHashing (createNode R id address)) id
           (virtualPosition id) (seq 0 150) fuel key); try done.
Qed.

(** X23: a node created alone answers a PUT from its own store only: the
    replica list is the node itself (empty for replication factor 0), and the
    PUT reports success exactly when the replication factor is 1. With the
    default factor 3 the quorum is 2, so every PUT is stored and reported as
    failed until another node is linked. *)
Theorem single_node_put (R fuel : nat) (id address key : string) (value : Value)
    (now_put now_store : Z) (acked : string -> bool) :
  (2 <= fuel)%nat ->
  exists c' r,
    put fuel (createNode R id address) key value now_put now_store acked = Some (c', r)
    /\ replicaNodes r = (if decide (R = 0%nat) then [] else [Some id])
    /\ successfulWrites r = (if decide (R = 0%nat) then 0%nat else 1%nat)
    /\ success r = bool_decide (R = 1%nat)
    /\ (R <> 0%nat ->
        localNode c' = storeData (new_Node id) key value 1 now_store).
Proof.
  intros Hfuel. unfold put. rewrite createNode_replicas by done.
  eexists _, _. split; [reflexivity|]. cbn [replicaNodes successfulWrites success localNode].
  destruct (decide (R = 0%nat)) as [->|HR].
  - repeat split; try done.
  - assert (includes [Some id] (nodeId (localNode (createNode R id address))) = true) as Hin.
    { unfold includes. apply bool_decide_eq_true. left. }
    rewrite Hin. cbn [replicateToPeers]. rewrite decide_True by done.
    split; [done|]. split; [done|]. split; [|done].
    change (quorumSize (createNode R id address)) with (R / 2 + 1)%nat.
    rewrite app_nil_r, filter_cons_True by done. rewrite filter_nil. cbn [length].
    destruct R as [|[|R]]; [done|done|].
    rewrite bool_decide_false by lia. apply Nat.leb_gt.
    pose proof (Nat.div_str_pos (S (S R)) 2). lia.
Qed.

Lemma single_node_put_witness :
  exists c' r,
    put 2 (createNode 3 "node-1" "localhost:3001") "user:1" (Json "John") 1000 1001 all_ack
    = Some (c', r)
    /\ replicaNodes r = (if decide (3%nat = 0%nat) then [] else [Some "node-1"])
    /\ successfulWrites r = (if decide (3%nat = 0%nat) then 0%nat else 1%nat)
    /\ success r = bool_decide (3%nat = 1%nat)
    /\ (3%nat <> 0%nat ->
        localNode c' = storeData (new_Node "node-1") "user:1" (Json "John") 1 1001).
Proof.
  apply (single_node_put 3 2 "node-1" "localhost:3001" "user:1" (Json "John") 1000 1001
           all_ack).
  lia.
Defined.

(** ** The cluster status after a failure *)

Lemma length_filter_lt {A : Type} (P : A -> Prop) `{!forall x, Decision (P x)}
    (x : A) (l : list A) :
  x ∈ l -> ~ P x -> (length (filter P l) < length l)%nat.
Proof.
  intros Hin Hx. induction l as [|y l IH]; [by apply elem_of_nil in Hin|].
  apply elem_of_cons in Hin as [<-|Hin].
  - rewrite filter_cons_False by done. simpl.
    pose proof (length_filter P l). lia.
  - specialize (IH Hin). destruct (decide (P y)).
    + rewrite filter_cons_True by done. simpl. lia.
    + rewrite filter_cons_False by done. simpl. lia.
Qed.

(** X24: once the failure check has dropped a peer, [getClusterStatus] lists
    it with status [failed] and its address, still counts it in
    [totalNodes], and reports fewer alive nodes than nodes: the node stays
    in the ring and only the peer table tells it apart. *)
Theorem status_after_failure (c : Cluster) (now t : Z) (bnow : string -> Z) (id : string) :
  id ∈ getAllNodes (consistentHashing c) ->
  id <> nodeId (localNode c) ->
  Map_get (lastHeartbeat (localNode c)) id = Some t ->
  now - t > 10000 ->
  let s := getClusterStatus (fst (cluster_checkForFailedNodes c now bnow)) in
  {| ns_nodeId := id; ns_status := "failed";
     ns_address := address <$> getNodeInfo (consistentHashing c) id |} ∈ cs_nodes s
  /\ is_Some (getNodeInfo (consistentHashing c) id)
  /\ cs_totalNodes s = cs_totalNodes (getClusterStatus c)
  /\ (cs_aliveNodes s < cs_totalNodes s)%nat.
Proof.
  intros Hin Hne Ht Hs s.
  set (c' := fst (cluster_checkForFailedNodes c now bnow)) in *.
  assert (consistentHashing c' = consistentHashing c) as Hring by reflexivity.
  assert (nodeId (localNode c') = nodeId (localNode c)) as Hid.
  { unfold c'. simpl. by destruct (checkForFailedNodes_state (localNode c) now bnow) as (-> & _). }
  assert (Map_get (peers (localNode c')) id = None) as Hp.
  { unfold c'. simpl.
    destruct (checkForFailedNodes_state (localNode c) now bnow) as (_ & _ & _ & -> & _).
    pose proof (Map_get_filter_keys (peers (localNode c))
                  (fun k => k ∉ stale now (lastHeartbeat (localNode c))) id) as Hq.
    cbv beta in Hq. rewrite Hq. rewrite decide_False; [done|].
    intros Hout. apply Hout, elem_of_stale. exists t.
    split; [by apply Map_get_Some_elem | unfold failureThreshold; lia]. }
  assert (~ (id = nodeId (localNode c') \/ Map_has (peers (localNode c')) id = true))
    as Hdead.
  { unfold Map_has. rewrite Hp, Hid. intros [?|?]; done. }
  assert (id ∉ aliveNodes c') as Hout.
  { unfold aliveNodes. intros H. apply list_elem_of_filter in H as [H _]. done. }
  split; [|split; [|split]].
  - unfold s, getClusterStatus. cbn [cs_nodes]. rewrite Hring.
    apply list_elem_of_fmap. exists id. split; [|done].
    by rewrite bool_decide_false.
  - by apply Map_get_is_Some.
  - reflexivity.
  - unfold s, getClusterStatus. cbn [cs_aliveNodes cs_totalNodes]. unfold aliveNodes.
    apply (length_filter_lt _ id); [by rewrite Hring | done].
Qed.

Lemma status_after_failure_witness :
  let s := getClusterStatus (fst (cluster_checkForFailedNodes cluster_123 12000
                                    (fun _ => 12000))) in
  {| ns_nodeId := "node-2"; ns_status := "failed";
     ns_address := address <$> getNodeInfo (consistentHashing cluster_123) "node-2" |}
    ∈ cs_nodes s
  /\ is_Some (getNodeInfo (consistentHashing cluster_123) "node-2")
  /\ cs_totalNodes s = cs_totalNodes (getClusterStatus cluster_123)
  /\ (cs_aliveNodes s < cs_totalNodes s)%nat.
Proof.
  apply (status_after_failure cluster_123 12000 0 (fun _ => 12000) "node-2").
  - vm_compute. right. left.
  - discriminate.
  - reflexivity.
  - lia.
Defined.

(** ** Joining through a seed *)

Lemma joinRing_state (received : list (string * NodeInfo)) (c : Cluster) :
  let c' := joinRing c received in
  localNode c' = localNode c
  /\ quorumSize c' = quorumSize c
  /\ cluster_replicationFactor c' = cluster_replicationFactor c
  /\ replicationFactor (consistentHashing c') = replicationFactor (consistentHashing c)
  /\ virtualNodes (consistentHashing c') = virtualNodes (consistentHashing c)
  /\ (reachable (consistentHashing c) -> reachable (consistentHashing c'))
  /\ (forall id, id ∈ getAllNodes (consistentHashing c')
                 <-> id ∈ getAllNodes (consistentHashing c)
                     \/ (id ∈ Map_keys received /\ id <> nodeId (localNode c)))
  /\ (forall id info, NoDup (Map_keys received) -> (id, info) ∈ received ->
                      id <> nodeId (localNode c) ->
                      getNodeInfo (consistentHashing c') id = Some info).
Proof.
  revert c. induction received as [|[x i] received IH]; intros c; simpl.
  - split_and!; try done.
    + intros id. split; [by left|]. intros [H|[H _]]; [done | by apply elem_of_nil in H].
    + intros id info _ H. by apply elem_of_nil in H.
  - set (c1 := if decide (x <> nodeId (localNode c))
               then with_ring c (addNode x i (consistentHashing c)) else c).
    assert (localNode c1 = localNode c /\ quorumSize c1 = quorumSize c
            /\ cluster_replicationFactor c1 = cluster_replicationFactor c
            /\ replicationFactor (consistentHashing c1)
               = replicationFactor (consistentHashing c)
            /\ virtualNodes (consistentHashing c1) = virtualNodes (consistentHashing c))
      as (Hn & Hq & Hr & Hrf & Hv).
    { unfold c1. by destruct (decide (x <> nodeId (localNode c))). }
    assert (reachable (consistentHashing c) -> reachable (consistentHashing c1)) as Hreach.
    { unfold c1. destruct (decide (x <> nodeId (localNode c))); [|done].
      intros H. simpl. by apply reachable_addNode. }
    assert (forall id, id ∈ getAllNodes (consistentHashing c1)
                       <-> id ∈ getAllNodes (consistentHashing c)
                           \/ (id = x /\ id <> nodeId (localNode c))) as Hall.
    { intros id. unfold c1, getAllNodes.
      destruct (decide (x <> nodeId (localNode c))) as [Hne|He]; simpl.
      - rewrite Map_keys_set. split; [intros [->|H]; auto | intros [H|[-> _]]; auto].
      - split; [auto|]. intros [H|[-> H]]; done. }
    destruct (IH c1) as (Hn' & Hq' & Hr' & Hrf' & Hv' & Hreach' & Hall' & Hinfo').
    fold (joinRing c1 received) in *.
    rewrite Hn', Hq', Hr', Hrf', Hv', Hn, Hq, Hr, Hrf, Hv.
    split_and!; try done.
    + auto.
    + intros id. rewrite Hall', Hall, Hn. unfold Map_keys. rewrite ?fmap_cons, elem_of_cons.
      simpl. tauto.
    + intros id info Hnd Hin Hne. unfold Map_keys in Hnd. rewrite ?fmap_cons in Hnd.
      simpl in Hnd. apply NoDup_cons in Hnd as [Hout Hnd].
      apply elem_of_cons in Hin as [[= -> ->]|Hin].
      * (* the entry added now is not touched by the rest of the loop *)
        clear Hinfo' Hall' IH.
        assert (getNodeInfo (consistentHashing c1) x = Some i) as H1.
        { unfold c1. rewrite decide_True by done. apply Map_get_set_eq. }
        clear Hall Hreach Hreach'. revert H1 Hout. generalize c1. clear.
        induction received as [|[y j] received IH]; intros c1 H1 Hout; [done|].
        simpl. apply IH.
        -- destruct (decide (y <> nodeId (localNode c1))); [|done]. simpl.
           unfold getNodeInfo in *. simpl. rewrite Map_get_set_ne; [done|].
           intros ->. apply Hout. simpl. left.
        -- intros H. apply Hout. simpl. by right.
      * apply Hinfo'; [done|done|by rewrite Hn].
Qed.


(** X25: what a joining node learns from a seed: when the seed's ring is a
    reachable state and the entries received are those of the seed's
    [getRingStatus], the merge loop of [joinCluster] leaves a node table that
    holds the joiner's own nodes and every node of the seed but one of the
    joiner's own id, each seed node with the descriptor the seed has for it.
    The loop changes only the ring: the replication factor, the quorum and
    the local node (its store and its peer table) are the joiner's own, as
    before. *)
Theorem join_learns_seed_nodes (seed c : Cluster) (received : list (string * NodeInfo)) :
  reachable (consistentHashing seed) ->
  rs_nodes (getRingStatus seed) = (fun e => (fst e, Some (snd e))) <$> received ->
  let c' := joinRing c received in
  (forall id, id ∈ getAllNodes (consistentHashing c')
              <-> id ∈ getAllNodes (consistentHashing c)
                  \/ (id ∈ getAllNodes (consistentHashing seed)
                      /\ id <> nodeId (localNode c)))
  /\ (forall id info, id <> nodeId (localNode c) ->
        getNodeInfo (consistentHashing seed) id = Some info ->
        getNodeInfo (consistentHashing c') id = Some info)
  /\ replicationFactor (consistentHashing c') = replicationFactor (consistentHashing c)
  /\ quorumSize c' = quorumSize c
  /\ localNode c' = localNode c
  /\ (reachable (consistentHashing c) -> reachable (consistentHashing c')).
Proof.
  intros Hseed Hrecv c'.
  destruct (joinRing_state received c) as (Hn & Hq & _ & Hrf & _ & Hreach & Hall & Hinfo).
  fold c' in Hn, Hq, Hrf, Hreach, Hall, Hinfo.
  assert (Map_keys received = getAllNodes (consistentHashing seed)) as Hkeys.
  { apply (f_equal (fmap fst)) in Hrecv. unfold getRingStatus in Hrecv. simpl in Hrecv.
    rewrite <- !list_fmap_compose in Hrecv. simpl in Hrecv.
    rewrite list_fmap_id in Hrecv. symmetry. exact Hrecv. }
  assert (NoDup (Map_keys received)) as Hnd.
  { rewrite Hkeys. by destruct (reachable_inv _ Hseed) as (_ & _ & ? & _). }
  split_and!; try done.
  - intros id. rewrite Hall, Hkeys. done.
  - intros id info Hne Hi. apply Hinfo; [done| |done].
    assert ((id, Some info) ∈ rs_nodes (getRingStatus seed)) as Hin.
    { unfold getRingStatus. simpl. apply list_elem_of_fmap. exists id.
      split; [by rewrite Hi|]. unfold getAllNodes. apply Map_get_Some_elem in Hi.
      unfold Map_keys. apply list_elem_of_fmap. by exists (id, info). }
    rewrite Hrecv in Hin. apply list_elem_of_fmap in Hin as ([id' info'] & [= -> ->] & Hin).
    done.
Qed.

Lemma join_learns_seed_nodes_witness :
  let c := createNode 3 "node-4" "localhost:3004" in
  let c' := joinRing c [("node-1", alive "localhost:3001");
                        ("node-2", alive "localhost:3002");
                        ("node-3", alive "localhost:3003")] in
  (forall id, id ∈ getAllNodes (consistentHashing c')
              <-> id ∈ getAllNodes (consistentHashing c)
                  \/ (id ∈ getAllNodes (consistentHashing cluster_123)
                      /\ id <> nodeId (localNode c)))
  /\ (forall id info, id <> nodeId (localNode c) ->
        getNodeInfo (consistentHashing cluster_123) id = Some info ->
        getNodeInfo (consistentHashing c') id = Some info)
  /\ replicationFactor (consistentHashing c') = replicationFactor (consistentHashing c)
  /\ quorumSize c' = quorumSize c
  /\ localNode c' = localNode c
  /\ (reachable (consistentHashing c) -> reachable (consistentHashing c')).
Proof.
  apply (join_learns_seed_nodes cluster_123 (createNode 3 "node-4" "localhost:3004")
           [("node-1", alive "localhost:3001"); ("node-2", alive "localhost:3002");
            ("node-3", alive "localhost:3003")]).
  - apply reachable_ring_123.
  - reflexivity.
Defined.

(** ** A peer that comes and goes *)


